(** * upsched: the upload scheduler of gouda

    A shallow embedding of [src/upsched/upsched.go].  The scheduler keeps a
    map from keys to [upload] records; every record points at a one-shot
    runtime timer.  The map is a [gmap], the timers live in a heap indexed by
    allocation order (a [*time.Timer] is an index into it), the runtime clock
    is a number of nanoseconds, and every invocation of a user callback is
    appended to a trace. *)

From Stdlib Require Import ZArith Lia Ascii.
From stdpp Require Import gmap strings list fin_maps.

Local Open Scope Z_scope.

(** ** Go values used by the package *)

(** [error] values: [errors.New] and [fmt.Errorf] with a [%w] verb. *)
Inductive error : Type :=
| errors_New (msg : string)
| fmt_Errorf_w (prefix : string) (inner : error).

Fixpoint Error (e : error) : string :=
  match e with
  | errors_New msg => msg
  | fmt_Errorf_w prefix inner => prefix +:+ Error inner
  end.

(** [errors.Unwrap]. *)
Definition Unwrap (e : error) : option error :=
  match e with
  | errors_New _ => None
  | fmt_Errorf_w _ inner => Some inner
  end.

Definition ErrExists : error := errors_New "upload key already exists".
Definition ErrNotExist : error := errors_New "upload key does not exist".
Definition AppendPrefix : string := "unable to append chunk to destination file: ".

(** [time.Duration] is an [int64] count of nanoseconds; products wrap. *)
Definition wrap64 (z : Z) : Z := (z + 2 ^ 63) mod 2 ^ 64 - 2 ^ 63.
Definition min_int64 : Z := - 2 ^ 63.
Definition max_int64 : Z := 2 ^ 63 - 1.
Definition int64 (z : Z) : Prop := min_int64 <= z <= max_int64.
Definition time_Second : Z := 1000000000.
Definition Duration_mul (a b : Z) : Z := wrap64 (a * b).

(** The chunk source of [Append] (a [multipart.File]): the bytes it still
    yields, and the error that ends the reading ([None] is [io.EOF]). *)
Record File : Type := mkFile { f_data : list Byte.byte; f_err : option error }.

(** The destination of [Append] (an [io.Writer]): what it has received, how
    many more bytes it accepts ([None]: any number), and the error it reports
    beyond that. *)
Record Writer : Type :=
  mkWriter { w_buf : list Byte.byte; w_room : option nat; w_err : error }.

(** [io.Copy dst src]: copies until the source ends or a write fails; returns
    the new destination, the number of bytes written and the first error. *)
Definition io_Copy (dst : Writer) (src : File) : Writer * Z * option error :=
  match w_room dst with
  | None =>
      (mkWriter (w_buf dst ++ f_data src) None (w_err dst),
       Z.of_nat (length (f_data src)), f_err src)
  | Some r =>
      if (length (f_data src) <=? r)%nat
      then (mkWriter (w_buf dst ++ f_data src)
                     (Some (r - length (f_data src))%nat) (w_err dst),
            Z.of_nat (length (f_data src)), f_err src)
      else (mkWriter (w_buf dst ++ take r (f_data src)) (Some 0%nat) (w_err dst),
            Z.of_nat r, Some (w_err dst))
  end.

(** User callbacks [func(K, error)] are opaque: one is known by its identity. *)
Definition Callback : Type := nat.

Section Scheduler.
Context {K : Type} `{Countable K}.

(** [type upload struct { timeout time.Duration; timer *time.Timer }] *)
Record upload : Type := mkUpload { timeout : Z; timer : nat }.

(** A runtime timer made by [time.AfterFunc d f]: the instant it is due at
    ([None] once stopped or fired) and the closure [f] of [Prepare], which
    captures the key and the callback. *)
Record Timer : Type := mkTimer { when : option Z; fn_key : K; fn_cb : Callback }.

(** The scheduler with the part of the runtime it talks to. *)
Record Sched : Type := mkSched {
  m : gmap K upload;                         (* us.m *)
  timers : list Timer;                       (* the timers allocated so far *)
  now : Z;                                   (* the clock, in nanoseconds *)
  calls : list (Callback * K * option error) (* callbacks invoked so far *)
}.

Definition set_m (f : gmap K upload → gmap K upload) (us : Sched) : Sched :=
  mkSched (f (m us)) (timers us) (now us) (calls us).
Definition set_timers (f : list Timer → list Timer) (us : Sched) : Sched :=
  mkSched (m us) (f (timers us)) (now us) (calls us).
Definition set_now (t : Z) (us : Sched) : Sched :=
  mkSched (m us) (timers us) t (calls us).
Definition invoke (cb : Callback) (k : K) (err : option error) (us : Sched) : Sched :=
  mkSched (m us) (timers us) (now us) (calls us ++ [(cb, k, err)]).

(** [NewScheduler], at clock [t0]. *)
Definition NewScheduler (t0 : Z) : Sched := mkSched ∅ [] t0 [].

(** *** The runtime timers *)

Definition arm (w : option Z) (tm : Timer) : Timer :=
  mkTimer w (fn_key tm) (fn_cb tm).

(** [time.AfterFunc(d, f)]: a new timer due [d] from now. *)
Definition time_AfterFunc (d : Z) (k : K) (cb : Callback) (us : Sched) : nat * Sched :=
  (length (timers us),
   set_timers (λ ts, ts ++ [mkTimer (Some (now us + d)) k cb]) us).

(** [t.Stop()] *)
Definition timer_Stop (t : nat) (us : Sched) : Sched :=
  set_timers (alter (arm None) t) us.

(** [t.Reset(d)] *)
Definition timer_Reset (t : nat) (d : Z) (us : Sched) : Sched :=
  set_timers (alter (arm (Some (now us + d))) t) us.

(** *** The three operations *)

Definition Finish (k : K) (us : Sched) : Sched * option error :=
  match m us !! k with
  | None => (us, Some ErrNotExist)
  | Some u =>
      let us1 := timer_Stop (timer u) us in
      (set_m (delete k) us1, None)
  end.

Definition Prepare (k : K) (timeout : Z) (cb : Callback) (us : Sched)
  : Sched * option error :=
  match m us !! k with
  | Some _ => (us, Some ErrExists)
  | None =>
      let d := Duration_mul time_Second timeout in
      let '(t, us1) := time_AfterFunc d k cb us in
      (set_m (insert k (mkUpload timeout t)) us1, None)
  end.

Definition Append (k : K) (chunk : File) (dst : Writer) (us : Sched)
  : Sched * Writer * option error :=
  match m us !! k with
  | None => (us, dst, Some ErrNotExist)
  | Some u =>
      let us1 := timer_Stop (timer u) us in
      let '(dst', _, err) := io_Copy dst chunk in
      (* the deferred call runs on both exits *)
      let us2 := timer_Reset (timer u) (timeout u) us1 in
      match err with
      | Some e => (us2, dst', Some (fmt_Errorf_w AppendPrefix e))
      | None => (us2, dst', None)
      end
  end.

(** *** Timer expiry *)

(** The closure [f] of [Prepare], run for key [k] and callback [cb]. *)
Definition expiry_fn (k : K) (cb : Callback) (us : Sched) : Sched :=
  match m us !! k with
  | Some _ =>
      let '(us1, err) := Finish k us in
      invoke cb k err us1
  | None => us
  end.

(** Timer [t] fires: it leaves the armed state and its closure runs. *)
Definition fire (t : nat) (us : Sched) : Sched :=
  match timers us !! t with
  | Some tm =>
      expiry_fn (fn_key tm) (fn_cb tm) (set_timers (alter (arm None) t) us)
  | None => us
  end.

(** Timer [t] is armed and due at instant [at_]. *)
Definition due (at_ : Z) (t : nat) (us : Sched) : bool :=
  match timers us !! t with
  | Some tm => match when tm with Some w => w <=? at_ | None => false end
  | None => false
  end.

(** The runtime fires a timer only once it is due. *)
Definition expire (t : nat) (us : Sched) : option Sched :=
  if due (now us) t us then Some (fire t us) else None.

(** The armed timer with the earliest instant not after [at_], the oldest
    timer first among equals. *)
Fixpoint earliest (at_ : Z) (ts : list Timer) (i : nat) (best : option (nat * Z))
  : option (nat * Z) :=
  match ts with
  | [] => best
  | tm :: ts' =>
      let best' :=
        match when tm with
        | Some w =>
            if w <=? at_ then
              match best with
              | Some (_, wb) => if w <? wb then Some (i, w) else best
              | None => Some (i, w)
              end
            else best
        | None => best
        end in
      earliest at_ ts' (S i) best'
  end.

Definition next_due (at_ : Z) (us : Sched) : option (nat * Z) :=
  earliest at_ (timers us) 0%nat None.

(** Fires every timer that comes due up to [at_], in order of time. *)
Fixpoint run_due (fuel : nat) (at_ : Z) (us : Sched) : Sched :=
  match fuel with
  | O => us
  | S fuel' =>
      match next_due at_ us with
      | Some (t, w) => run_due fuel' at_ (fire t (set_now (Z.max (now us) w) us))
      | None => us
      end
  end.

(** The clock advances by [d] with nobody calling the scheduler. *)
Definition sleep (d : Z) (us : Sched) : Sched :=
  let at_ := now us + d in
  set_now at_ (run_due (length (timers us)) at_ us).

(** The number of armed timers. *)
Fixpoint armed (ts : list Timer) : nat :=
  match ts with
  | [] => 0
  | tm :: ts' => (match when tm with Some _ => 1 | None => 0 end) + armed ts'
  end.

(** [n] appends to [k], one every [gap] nanoseconds, each of the same chunk
    into the destination the previous one left; the results in order. *)
Fixpoint append_every (n : nat) (gap : Z) (k : K) (chunk : File) (dst : Writer)
    (us : Sched) : Sched * Writer * list (option error) :=
  match n with
  | O => (us, dst, [])
  | S n' =>
      let '(us1, dst1, err) := Append k chunk dst (sleep gap us) in
      let '(us2, dst2, errs) := append_every n' gap k chunk dst1 us1 in
      (us2, dst2, err :: errs)
  end.

(** *** A scheduler driven by its callers and by the runtime *)

Inductive event : Type :=
| EvPrepare (k : K) (timeout : Z) (cb : Callback)
| EvAppend (k : K) (chunk : File) (dst : Writer)
| EvFinish (k : K)
| EvSleep (d : Z)
| EvExpire (t : nat).

Definition step (us : Sched) (ev : event) : Sched :=
  match ev with
  | EvPrepare k timeout cb => (Prepare k timeout cb us).1
  | EvAppend k chunk dst => (Append k chunk dst us).1.1
  | EvFinish k => (Finish k us).1
  | EvSleep d => sleep d us
  | EvExpire t => default us (expire t us)
  end.

Definition run (evs : list event) (us : Sched) : Sched := foldl step us evs.

(** Timer [t] exists, is not armed, and belongs to no session. *)
Definition retired (t : nat) (us : Sched) : Prop :=
  (t < length (timers us))%nat
  ∧ (∀ tm, timers us !! t = Some tm → when tm = None)
  ∧ (∀ k u, m us !! k = Some u → timer u ≠ t).

(** Every session owns a timer made for its key, and every armed timer is
    owned by the session of its key. *)
Definition owned (us : Sched) : Prop :=
  (∀ k u, m us !! k = Some u →
          ∃ tm, timers us !! timer u = Some tm ∧ fn_key tm = k)
  ∧ (∀ t tm w, timers us !! t = Some tm → when tm = Some w →
               ∃ u, m us !! fn_key tm = Some u ∧ timer u = t).

(** The two states of a key. *)
Inductive key_state : Type := absent | active.

Definition state_of (k : K) (us : Sched) : key_state :=
  match m us !! k with Some _ => active | None => absent end.

(** The instant the session of [k] is due at, if it is active and armed. *)
Definition deadline (k : K) (us : Sched) : option Z :=
  u ← m us !! k; tm ← timers us !! timer u; when tm.

End Scheduler.

Arguments upload : clear implicits.
Arguments Timer : clear implicits.
Arguments Sched K {_ _}.

(** ** A small scheduler to run the operations on

    Integer keys; one upload, key 1, prepared at instant 0 with a timeout of
    2 and the callback 0. *)

Definition sched0 : Sched Z := NewScheduler 0.
Definition sched1 : Sched Z := (Prepare 1 2 0%nat sched0).1.
Definition chunk3 : File := mkFile [Byte.x61; Byte.x62; Byte.x63] None.
Definition sink : Writer := mkWriter [] None (errors_New "write error").
Definition full_sink : Writer :=
  mkWriter [] (Some 2%nat) (errors_New "no space left on device").

(** ** More about schedulers *)

Section SchedulerFacts.
Context {K : Type} `{Countable K}.

(** Every session's timer is armed. *)
Definition all_armed (us : Sched K) : Prop :=
  ∀ k u, m us !! k = Some u →
         ∃ tm w, timers us !! timer u = Some tm ∧ when tm = Some w.

(** The invocations of callbacks that were made for key [k]. *)
Definition calls_for (k : K) (cs : list (Callback * K * option error))
  : list (Callback * K * option error) :=
  filter (λ c, c.1.2 = k) cs.

(** The events that are calls of the three operations. *)
Definition is_call (ev : event (K:=K)) : bool :=
  match ev with
  | EvPrepare _ _ _ | EvAppend _ _ _ | EvFinish _ => true
  | EvSleep _ | EvExpire _ => false
  end.

End SchedulerFacts.

(** * godl: the headers of a download

    A shallow embedding of [src/godl/godl.go].  The response writer is known
    by its header map, which the functions update; [http.ServeFile], the MIME
    detection and the extension table are the libraries' and are taken as
    given. *)

(** [http.Header], with [Set] and [Get].  Both canonicalise the key they are
    given; "Content-Type" and "Content-Disposition", the keys of this package,
    are in canonical form. *)
Abbreviation Header := (gmap string (list string)).

Definition Header_Set (key value : string) (h : Header) : Header :=
  <[key := [value]]> h.

Definition Header_Get (key : string) (h : Header) : string :=
  match h !! key with
  | Some (v :: _) => v
  | _ => EmptyString
  end.

(** [url.QueryEscape]: letters, digits and [-_.~] stay, a space becomes [+],
    every other byte becomes [%XX] in upper-case hexadecimal. *)
Definition is_alnum (c : Ascii.ascii) : bool :=
  let n := Ascii.nat_of_ascii c in
  ((97 <=? n) && (n <=? 122) || (65 <=? n) && (n <=? 90)
   || (48 <=? n) && (n <=? 57))%nat.

Definition shouldEscape (c : Ascii.ascii) : bool :=
  if is_alnum c then false
  else match c with
       | "-" | "_" | "." | "~" => false
       | _ => true
       end%char.

Definition upperhex (n : nat) : Ascii.ascii :=
  default "0"%char (String.list_ascii_of_string "0123456789ABCDEF" !! n).

Fixpoint QueryEscape (s : string) : string :=
  match s with
  | EmptyString => EmptyString
  | String c s' =>
      if Ascii.eqb c " " then String "+" (QueryEscape s')
      else if shouldEscape c then
        String "%"
          (String (upperhex (Ascii.nat_of_ascii c / 16))
             (String (upperhex (Ascii.nat_of_ascii c mod 16)) (QueryEscape s')))
      else String c (QueryEscape s')
  end.

(** What [QueryEscape] writes for one byte. *)
Definition escape_byte (c : Ascii.ascii) : string :=
  if Ascii.eqb c " " then "+"
  else if shouldEscape c then
    String "%"
      (String (upperhex (Ascii.nat_of_ascii c / 16))
         (String (upperhex (Ascii.nat_of_ascii c mod 16)) EmptyString))
  else String c EmptyString.

(** The value of a hexadecimal digit, and the reading back of an escaped
    string ([None] when it is not well formed). *)
Definition unhex (c : Ascii.ascii) : option nat :=
  let n := Ascii.nat_of_ascii c in
  if ((48 <=? n) && (n <=? 57))%nat then Some (n - 48)%nat
  else if ((65 <=? n) && (n <=? 70))%nat then Some (n - 55)%nat
  else if ((97 <=? n) && (n <=? 102))%nat then Some (n - 87)%nat
  else None.

Fixpoint unescape_query (s : string) : option string :=
  match s with
  | EmptyString => Some EmptyString
  | String c s' =>
      if Ascii.eqb c "%" then
        match s' with
        | String a (String b rest) =>
            hi ← unhex a; lo ← unhex b; r ← unescape_query rest;
            Some (String (Ascii.ascii_of_nat (16 * hi + lo)) r)
        | _ => None
        end
      else if Ascii.eqb c "+" then String " " <$> unescape_query s'
      else String c <$> unescape_query s'
  end.

(** The bytes [QueryEscape] can produce. *)
Definition escaped_byte (c : Ascii.ascii) : bool :=
  is_alnum c
  || match c with
     | "-" | "_" | "." | "~" | "+" | "%" => true
     | _ => false
     end%char.

Fixpoint string_forallb (f : Ascii.ascii → bool) (s : string) : bool :=
  match s with
  | EmptyString => true
  | String c s' => f c && string_forallb f s'
  end.

Definition ContentType : string := "Content-Type".
Definition ContentDisposition : string := "Content-Disposition".
Definition OctetStream : string := "application/octet-stream".
Definition AttachmentPrefix : string := "attachment; filename*=UTF-8''".

(** What the package takes from its libraries: [mimetype.DetectFile path]
    (the detected type as a string, or [None] when it returns an error),
    [mime.TypeByExtension], [filepath.Ext], and [http.ServeFile w r path] of
    a writer with the given headers. *)
Class Libraries : Type := {
  mimetype_DetectFile : string → option string;
  mime_TypeByExtension : string → string;
  filepath_Ext : string → string;
  Request : Type;
  Response : Type;
  http_ServeFile : Header → Request → string → Response
}.

Section Godl.
Context `{Libraries}.

Definition InferByExtension (path : string) : string :=
  mime_TypeByExtension (filepath_Ext path).

Definition InferByMagic (path : string) : string :=
  match mimetype_DetectFile path with
  | Some mt => mt
  | None => EmptyString
  end.

Definition Infer (path : string) : string :=
  let mt := InferByMagic path in
  if String.eqb mt EmptyString then InferByExtension path else mt.

Definition SetContentType (w : Header) (path : string) (infer : string → string)
  : Header :=
  let mt := infer path in
  let mt := if String.eqb mt EmptyString then OctetStream else mt in
  Header_Set ContentType mt w.

Definition SetAttachment (w : Header) (name : string) : Header :=
  Header_Set ContentDisposition (AttachmentPrefix +:+ QueryEscape name) w.

Definition ServeAttachment (w : Header) (r : Request) (path name : string)
    (infer : string → string) : Response :=
  let w1 := SetContentType w path infer in
  let w2 := SetAttachment w1 name in
  http_ServeFile w2 r path.

(** The loop of [ServeDownload] over the inline types. *)
Fixpoint range_inlineTypes (w : Header) (inlineTypes : list string) (inline : bool)
  : bool :=
  match inlineTypes with
  | [] => inline
  | it :: rest =>
      if String.eqb it (Header_Get ContentType w) then true
      else range_inlineTypes w rest inline
  end.

Definition ServeDownload (w : Header) (r : Request) (path name : string)
    (inlineTypes : list string) (infer : string → string) : Response :=
  let w1 := SetContentType w path infer in
  let inline := (length inlineTypes =? 0)%nat in
  let inline := range_inlineTypes w1 inlineTypes inline in
  let w2 := if negb inline then SetAttachment w1 name else w1 in
  http_ServeFile w2 r path.

End Godl.

(** Libraries to run the functions with: one file is detected as a PNG image,
    the extension ".txt" is known, and serving a file returns the headers and
    the path it was given. *)
Definition demo_libraries : Libraries := {|
  mimetype_DetectFile p :=
    if String.eqb p "/srv/logo" then Some "image/png" else None;
  mime_TypeByExtension e :=
    if String.eqb e ".txt" then "text/plain; charset=utf-8" else EmptyString;
  filepath_Ext p := if String.eqb p "/srv/notes.txt" then ".txt" else EmptyString;
  Request := unit;
  Response := Header * string;
  http_ServeFile w _ p := (w, p)
|}.

(** ** What each operation computes *)

Section Equations.
Context {K : Type} `{Countable K}.
Implicit Types (us : Sched K) (k : K) (u : upload) (tm : Timer K).

Lemma arm_arm (w w' : option Z) tm : arm w (arm w' tm) = arm w tm.
Proof. reflexivity. Qed.

Lemma alter_arm_twice (w w' : option Z) (t : nat) (ts : list (Timer K)) :
  alter (arm w) t (alter (arm w') t ts) = alter (arm w) t ts.
Proof.
  rewrite list_alter_alter_eq. apply list_alter_ext; [|reflexivity].
  intros tm _. apply arm_arm.
Qed.

Lemma Prepare_absent us k timeout cb :
  m us !! k = None →
  Prepare k timeout cb us =
    (mkSched (<[k := mkUpload timeout (length (timers us))]> (m us))
             (timers us ++
                [mkTimer (Some (now us + Duration_mul time_Second timeout)) k cb])
             (now us) (calls us),
     None).
Proof. intros Hk. unfold Prepare. rewrite Hk. reflexivity. Qed.

Lemma Prepare_active us k u timeout cb :
  m us !! k = Some u → Prepare k timeout cb us = (us, Some ErrExists).
Proof. intros Hk. unfold Prepare. rewrite Hk. reflexivity. Qed.

Lemma Finish_absent us k :
  m us !! k = None → Finish k us = (us, Some ErrNotExist).
Proof. intros Hk. unfold Finish. rewrite Hk. reflexivity. Qed.

Lemma Finish_active us k u :
  m us !! k = Some u →
  Finish k us =
    (mkSched (delete k (m us)) (alter (arm None) (timer u) (timers us))
             (now us) (calls us),
     None).
Proof. intros Hk. unfold Finish. rewrite Hk. reflexivity. Qed.

Lemma Append_absent us k chunk dst :
  m us !! k = None → Append k chunk dst us = (us, dst, Some ErrNotExist).
Proof. intros Hk. unfold Append. rewrite Hk. reflexivity. Qed.

Lemma Append_active us k u chunk dst :
  m us !! k = Some u →
  Append k chunk dst us =
    (mkSched (m us)
             (alter (arm (Some (now us + timeout u))) (timer u) (timers us))
             (now us) (calls us),
     (io_Copy dst chunk).1.1,
     fmt_Errorf_w AppendPrefix <$> (io_Copy dst chunk).2).
Proof.
  intros Hk. unfold Append. rewrite Hk.
  destruct (io_Copy dst chunk) as [[dst' n] [e|]]; cbn;
    unfold timer_Reset, timer_Stop, set_timers; cbn;
    rewrite alter_arm_twice; reflexivity.
Qed.

Lemma Append_registry us k chunk dst : m (Append k chunk dst us).1.1 = m us.
Proof.
  destruct (m us !! k) as [u|] eqn:Hk.
  - rewrite (Append_active _ _ _ _ _ Hk). reflexivity.
  - rewrite (Append_absent _ _ _ _ Hk). reflexivity.
Qed.

Lemma expiry_fn_active us k u cb :
  m us !! k = Some u →
  expiry_fn k cb us =
    mkSched (delete k (m us)) (alter (arm None) (timer u) (timers us))
            (now us) (calls us ++ [(cb, k, None)]).
Proof.
  intros Hk. unfold expiry_fn. rewrite Hk, (Finish_active _ _ _ Hk). reflexivity.
Qed.

Lemma expiry_fn_absent us k cb : m us !! k = None → expiry_fn k cb us = us.
Proof. intros Hk. unfold expiry_fn. rewrite Hk. reflexivity. Qed.

Lemma due_alter_None (at_ : Z) (t : nat) (ts : list (Timer K)) (mm : gmap K upload)
    (n : Z) (cs : list (Callback * K * option error)) :
  due at_ t (mkSched mm (alter (arm None) t ts) n cs) = false.
Proof.
  unfold due; cbn. rewrite list_lookup_alter_eq.
  destruct (ts !! t); reflexivity.
Qed.

Lemma state_of_active us k : state_of k us = active ↔ is_Some (m us !! k).
Proof.
  unfold state_of. destruct (m us !! k); split; intros Hs;
    try reflexivity; try discriminate; eauto.
  destruct Hs; discriminate.
Qed.

Lemma state_of_absent us k : state_of k us = absent ↔ m us !! k = None.
Proof. unfold state_of. destruct (m us !! k); split; congruence. Qed.

End Equations.

(** ** Rejected calls: duplicate and unknown keys *)

Section Rejections.
Context {K : Type} `{Countable K}.
Implicit Types (us : Sched K) (k : K) (u : upload) (tm : Timer K).

(** C5. A second [Prepare] of an active key returns the error
    "upload key already exists" and returns the scheduler as it was: no
    session is created, no timer is allocated or armed, the original
    session keeps its timeout and its timer.  It is the only error of
    [Prepare]: on a key that is not active [Prepare] returns no error. *)
Theorem Prepare_duplicate us k u timeout cb :
  m us !! k = Some u →
  Prepare k timeout cb us = (us, Some ErrExists)
  ∧ Error ErrExists = "upload key already exists"
  ∧ m (Prepare k timeout cb us).1 !! k = Some u
  ∧ timers (Prepare k timeout cb us).1 = timers us
  ∧ (∀ us' k' timeout' cb' e,
       (Prepare k' timeout' cb' us').2 = Some e →
       e = ErrExists ∧ is_Some (m us' !! k')).
Proof.
  intros Hk. rewrite (Prepare_active _ _ _ _ _ Hk). cbn.
  split; [reflexivity|]. split; [reflexivity|]. split; [exact Hk|].
  split; [reflexivity|].
  intros us' k' timeout' cb' e. unfold Prepare.
  destruct (m us' !! k') as [u'|]; cbn; intros He.
  - split; [congruence|eauto].
  - discriminate He.
Qed.

(** C6. On a key with no active session [Append] and [Finish] both return
    the error "upload key does not exist"; the scheduler (registry, every
    session, every timer) is returned unchanged and the destination has
    received nothing. *)
Theorem unknown_key_rejected us k chunk dst :
  m us !! k = None →
  Append k chunk dst us = (us, dst, Some ErrNotExist)
  ∧ Finish k us = (us, Some ErrNotExist)
  ∧ Error ErrNotExist = "upload key does not exist".
Proof.
  intros Hk. rewrite (Append_absent _ _ _ _ Hk), (Finish_absent _ _ Hk).
  repeat split.
Qed.

(** A key is without a session in a new scheduler, after [Finish] and after
    its timer has fired. *)
Lemma NewScheduler_absent (t0 : Z) k : m (NewScheduler (K:=K) t0) !! k = None.
Proof. apply lookup_empty. Qed.

Lemma Finish_absent_after us k : m (Finish k us).1 !! k = None.
Proof.
  destruct (m us !! k) as [u|] eqn:Hk.
  - rewrite (Finish_active _ _ _ Hk). cbn. apply lookup_delete_eq.
  - rewrite (Finish_absent _ _ Hk). exact Hk.
Qed.

Lemma fire_absent_after us t tm :
  timers us !! t = Some tm → m (fire t us) !! fn_key tm = None.
Proof.
  intros Ht. unfold fire. rewrite Ht.
  set (us1 := set_timers _ us).
  destruct (m us1 !! fn_key tm) as [u|] eqn:Hk.
  - rewrite (expiry_fn_active _ _ _ _ Hk). cbn. apply lookup_delete_eq.
  - rewrite (expiry_fn_absent _ _ _ Hk). exact Hk.
Qed.

(** C8. [Finish] of an active key stops the session's timer, removes the
    session and returns no error; a second [Finish] returns the error
    "upload key does not exist" and changes nothing. *)
Theorem Finish_then_Finish us k u :
  m us !! k = Some u →
  (Finish k us).2 = None
  ∧ m (Finish k us).1 = delete k (m us)
  ∧ m (Finish k us).1 !! k = None
  ∧ timers (Finish k us).1 = alter (arm None) (timer u) (timers us)
  ∧ (∀ at_, due at_ (timer u) (Finish k us).1 = false)
  ∧ Finish k (Finish k us).1 = ((Finish k us).1, Some ErrNotExist)
  ∧ Error ErrNotExist = "upload key does not exist".
Proof.
  intros Hk. rewrite (Finish_active _ _ _ Hk). cbn.
  repeat split.
  - apply lookup_delete_eq.
  - intros at_. apply due_alter_None.
  - apply Finish_absent. cbn. apply lookup_delete_eq.
Qed.

(** C10. [Append] leaves the registry as it was (the same keys, the same
    records, so the same stored timeout and the same timer), allocates no
    timer and invokes no callback, whether the copy succeeds or fails; every
    timer keeps its closure, and every timer other than the session's keeps
    its state; the destination is what [io.Copy] makes of it. *)
Theorem Append_frame us k chunk dst :
  m (Append k chunk dst us).1.1 = m us
  ∧ dom (m (Append k chunk dst us).1.1) = dom (m us)
  ∧ now (Append k chunk dst us).1.1 = now us
  ∧ calls (Append k chunk dst us).1.1 = calls us
  ∧ length (timers (Append k chunk dst us).1.1) = length (timers us)
  ∧ (∀ t, fn_key <$> timers (Append k chunk dst us).1.1 !! t
          = fn_key <$> timers us !! t
        ∧ fn_cb <$> timers (Append k chunk dst us).1.1 !! t
          = fn_cb <$> timers us !! t)
  ∧ (∀ t, (∀ u, m us !! k = Some u → t ≠ timer u) →
          timers (Append k chunk dst us).1.1 !! t = timers us !! t)
  ∧ (Append k chunk dst us).1.2 =
      match m us !! k with
      | Some _ => (io_Copy dst chunk).1.1
      | None => dst
      end.
Proof.
  destruct (m us !! k) as [u|] eqn:Hk.
  - rewrite (Append_active _ _ _ _ _ Hk). cbn.
    do 4 (split; [reflexivity|]).
    split; [apply length_alter|].
    split; [|split; [|reflexivity]].
    + intros t. rewrite list_lookup_alter.
      case_decide as Ht; [subst t|split; reflexivity].
      destruct (timers us !! timer u); split; reflexivity.
    + intros t Hne. apply list_lookup_alter_ne.
      intros Heq. exact (Hne u eq_refl (eq_sym Heq)).
  - rewrite (Append_absent _ _ _ _ Hk). cbn. repeat split.
Qed.

End Rejections.

(** ** Expiry and the life of a key *)

Section Lifecycle.
Context {K : Type} `{Countable K}.
Implicit Types (us : Sched K) (k : K) (u : upload) (tm : Timer K).

Lemma fire_present us t tm u :
  timers us !! t = Some tm →
  m us !! fn_key tm = Some u →
  fire t us =
    mkSched (delete (fn_key tm) (m us))
            (alter (arm None) (timer u) (alter (arm None) t (timers us)))
            (now us) (calls us ++ [(fn_cb tm, fn_key tm, None)]).
Proof.
  intros Ht Hk. unfold fire. rewrite Ht.
  rewrite (expiry_fn_active _ _ u); [reflexivity|exact Hk].
Qed.

Lemma fire_removed us t tm :
  timers us !! t = Some tm →
  m us !! fn_key tm = None →
  fire t us = set_timers (alter (arm None) t) us.
Proof.
  intros Ht Hk. unfold fire. rewrite Ht.
  apply expiry_fn_absent. exact Hk.
Qed.

Lemma fire_unallocated us t : timers us !! t = None → fire t us = us.
Proof. intros Ht. unfold fire. rewrite Ht. reflexivity. Qed.

Lemma fire_disarms us t (at_ : Z) : due at_ t (fire t us) = false.
Proof.
  destruct (timers us !! t) as [tm|] eqn:Ht.
  - destruct (m us !! fn_key tm) as [u|] eqn:Hk.
    + rewrite (fire_present _ _ _ _ Ht Hk). unfold due; cbn.
      rewrite list_lookup_alter. case_decide as Htu.
      * rewrite Htu, list_lookup_alter_eq, Ht. reflexivity.
      * rewrite list_lookup_alter_eq, Ht. reflexivity.
    + rewrite (fire_removed _ _ _ Ht Hk). apply due_alter_None.
  - rewrite (fire_unallocated _ _ Ht). unfold due. rewrite Ht. reflexivity.
Qed.

Lemma expire_Some us t us' :
  expire t us = Some us' → due (now us) t us = true ∧ us' = fire t us.
Proof.
  unfold expire. destruct (due (now us) t us); [|discriminate].
  intros [= <-]. split; reflexivity.
Qed.

Lemma fire_keeps_others us t k :
  (∀ tm, timers us !! t = Some tm → fn_key tm ≠ k) →
  m (fire t us) !! k = m us !! k.
Proof.
  intros Hne. destruct (timers us !! t) as [tm|] eqn:Ht.
  - destruct (m us !! fn_key tm) as [u|] eqn:Hk.
    + rewrite (fire_present _ _ _ _ Ht Hk). cbn.
      apply lookup_delete_ne. exact (Hne tm eq_refl).
    + rewrite (fire_removed _ _ _ Ht Hk). reflexivity.
  - rewrite (fire_unallocated _ _ Ht). reflexivity.
Qed.

Lemma fire_no_activation us t k : m us !! k = None → m (fire t us) !! k = None.
Proof.
  intros Hk. destruct (timers us !! t) as [tm|] eqn:Ht.
  - destruct (decide (fn_key tm = k)) as [<-|Hne].
    + exact (fire_absent_after _ _ _ Ht).
    + rewrite fire_keeps_others; [exact Hk|].
      intros tm' Ht'. rewrite Ht in Ht'. injection Ht' as <-. exact Hne.
  - rewrite (fire_unallocated _ _ Ht). exact Hk.
Qed.

Lemma run_due_no_activation fuel (at_ : Z) us k :
  m us !! k = None → m (run_due fuel at_ us) !! k = None.
Proof.
  revert us. induction fuel as [|fuel IH]; intros us Hk; cbn; [exact Hk|].
  destruct (next_due at_ us) as [[t w]|]; [|exact Hk].
  apply IH. apply fire_no_activation. exact Hk.
Qed.

Lemma sleep_no_activation (d : Z) us k :
  m us !! k = None → m (sleep d us) !! k = None.
Proof. intros Hk. unfold sleep. cbn. apply run_due_no_activation. exact Hk. Qed.

(** C4. A key is absent or active, and the registry holds at most one
    session for it.  On an absent key [Prepare] succeeds and makes it
    active, [Append] and [Finish] fail with "does not exist" and change
    nothing.  On an active key [Prepare] fails with "already exists" and
    changes nothing, [Append] keeps it active, [Finish] succeeds and makes
    it absent, and so does the firing of a timer made for it.  An operation
    on another key, the firing of a timer made for another key and the
    passing of time leave an absent key absent; the first two leave an
    active key active. *)
Theorem key_lifecycle us k :
  match state_of k us with
  | absent =>
      (∀ timeout cb,
          (Prepare k timeout cb us).2 = None
          ∧ state_of k (Prepare k timeout cb us).1 = active)
      ∧ (∀ chunk dst, Append k chunk dst us = (us, dst, Some ErrNotExist))
      ∧ Finish k us = (us, Some ErrNotExist)
  | active =>
      (∀ timeout cb, Prepare k timeout cb us = (us, Some ErrExists))
      ∧ (∀ chunk dst,
            state_of k (Append k chunk dst us).1.1 = active
            ∧ (Append k chunk dst us).2
              = fmt_Errorf_w AppendPrefix <$> (io_Copy dst chunk).2)
      ∧ (Finish k us).2 = None
      ∧ state_of k (Finish k us).1 = absent
  end
  ∧ (∀ t tm, timers us !! t = Some tm → fn_key tm = k →
             state_of k (fire t us) = absent)
  ∧ (∀ u1 u2, m us !! k = Some u1 → m us !! k = Some u2 → u1 = u2)
  ∧ (∀ k', k' ≠ k →
       (∀ timeout cb, state_of k (Prepare k' timeout cb us).1 = state_of k us)
       ∧ (∀ chunk dst, state_of k (Append k' chunk dst us).1.1 = state_of k us)
       ∧ state_of k (Finish k' us).1 = state_of k us)
  ∧ (∀ t, (∀ tm, timers us !! t = Some tm → fn_key tm ≠ k) →
          state_of k (fire t us) = state_of k us)
  ∧ (∀ d, state_of k us = absent → state_of k (sleep d us) = absent)
  ∧ Error ErrNotExist = "upload key does not exist"
  ∧ Error ErrExists = "upload key already exists".
Proof.
  split; [|split; [|split; [|split; [|split; [|split]]]]].
  - unfold state_of. destruct (m us !! k) as [u|] eqn:Hk.
    + split; [|split; [|split]].
      * intros timeout cb. exact (Prepare_active _ _ _ _ _ Hk).
      * intros chunk dst. rewrite (Append_active _ _ _ _ _ Hk). cbn.
        rewrite Hk. split; reflexivity.
      * rewrite (Finish_active _ _ _ Hk). reflexivity.
      * rewrite Finish_absent_after. reflexivity.
    + split; [|split].
      * intros timeout cb. rewrite (Prepare_absent _ _ _ _ Hk). cbn.
        rewrite lookup_insert_eq. split; reflexivity.
      * intros chunk dst. exact (Append_absent _ _ _ _ Hk).
      * exact (Finish_absent _ _ Hk).
  - intros t tm Ht <-. apply state_of_absent.
    exact (fire_absent_after _ _ _ Ht).
  - intros u1 u2 H1 H2. congruence.
  - intros k' Hne. unfold state_of. split; [|split].
    + intros timeout cb. destruct (m us !! k') as [u'|] eqn:Hk'.
      * rewrite (Prepare_active _ _ _ _ _ Hk'). reflexivity.
      * rewrite (Prepare_absent _ _ _ _ Hk'). cbn.
        rewrite lookup_insert_ne by exact Hne. reflexivity.
    + intros chunk dst.
      rewrite Append_registry. reflexivity.
    + destruct (m us !! k') as [u'|] eqn:Hk'.
      * rewrite (Finish_active _ _ _ Hk'). cbn.
        rewrite lookup_delete_ne by exact Hne. reflexivity.
      * rewrite (Finish_absent _ _ Hk'). reflexivity.
  - intros t Hne. unfold state_of. rewrite fire_keeps_others by exact Hne.
    reflexivity.
  - intros d Hk. apply state_of_absent. apply sleep_no_activation.
    apply state_of_absent. exact Hk.
  - split; reflexivity.
Qed.

End Lifecycle.

(** ** Durations and deadlines *)

Lemma wrap64_small (z : Z) : int64 z → wrap64 z = z.
Proof.
  unfold int64, min_int64, max_int64, wrap64. intros Hz.
  rewrite Z.mod_small by lia. lia.
Qed.

Lemma Duration_mul_seconds (t : Z) :
  -9223372036 <= t <= 9223372036 →
  Duration_mul time_Second t = 1000000000 * t.
Proof.
  intros Ht. unfold Duration_mul, time_Second. apply wrap64_small.
  unfold int64, min_int64, max_int64. lia.
Qed.

(** Only the zero timeout is the same number of seconds and of nanoseconds. *)
Lemma Duration_mul_fixpoint (t : Z) :
  int64 t → Duration_mul time_Second t = t → t = 0.
Proof.
  unfold int64, min_int64, max_int64, Duration_mul, time_Second, wrap64.
  intros Ht Heq.
  pose proof (Z.div_mod (1000000000 * t + 2 ^ 63) (2 ^ 64) ltac:(lia)) as Hdm.
  set (q := (1000000000 * t + 2 ^ 63) / 2 ^ 64) in *.
  assert (Hdiv : (2 ^ 64 | 999999999 * t)).
  { exists q. lia. }
  apply Z.gauss in Hdiv; [|reflexivity].
  destruct Hdiv as [c Hc]. lia.
Qed.

Section Deadlines.
Context {K : Type} `{Countable K}.
Implicit Types (us : Sched K) (k : K) (u : upload) (tm : Timer K).

Lemma Prepare_deadline us k timeout cb :
  m us !! k = None →
  deadline k (Prepare k timeout cb us).1
    = Some (now us + Duration_mul time_Second timeout).
Proof.
  intros Hk. rewrite (Prepare_absent _ _ _ _ Hk). unfold deadline; cbn.
  rewrite lookup_insert_eq; cbn.
  rewrite lookup_app_r by lia. rewrite Nat.sub_diag. reflexivity.
Qed.

Lemma Append_deadline us k u tm chunk dst :
  m us !! k = Some u →
  timers us !! timer u = Some tm →
  deadline k (Append k chunk dst us).1.1 = Some (now us + timeout u).
Proof.
  intros Hk Ht. rewrite (Append_active _ _ _ _ _ Hk). unfold deadline; cbn.
  rewrite Hk; cbn. rewrite list_lookup_alter_eq, Ht. reflexivity.
Qed.

Lemma Prepare_then_Append us k timeout cb chunk dst :
  m us !! k = None →
  Append k chunk dst (Prepare k timeout cb us).1 =
    (mkSched (<[k := mkUpload timeout (length (timers us))]> (m us))
             (timers us ++ [mkTimer (Some (now us + timeout)) k cb])
             (now us) (calls us),
     (io_Copy dst chunk).1.1,
     fmt_Errorf_w AppendPrefix <$> (io_Copy dst chunk).2).
Proof.
  intros Hk. rewrite (Prepare_absent _ _ _ _ Hk).
  rewrite (Append_active _ _ (mkUpload timeout (length (timers us))))
    by (cbn; apply lookup_insert_eq).
  cbn. rewrite <- (Nat.add_0_r (length (timers us))) at 2.
  rewrite alter_app_r. reflexivity.
Qed.

Lemma Append_rearm_deadlines_aux us k timeout cb chunk dst :
  m us !! k = None →
  deadline k (Prepare k timeout cb us).1
    = Some (now us + Duration_mul time_Second timeout)
  ∧ deadline k (Append k chunk dst (Prepare k timeout cb us).1).1.1
    = Some (now us + timeout).
Proof.
  intros Hk. split; [exact (Prepare_deadline _ _ _ _ Hk)|].
  rewrite (Prepare_then_Append _ _ _ _ _ _ Hk). unfold deadline; cbn.
  rewrite lookup_insert_eq; cbn.
  rewrite lookup_app_r by lia. rewrite Nat.sub_diag. reflexivity.
Qed.

(** C1. [Prepare] arms the timer [time.Second * timeout] from now, and an
    [Append] made at that same instant leaves it armed [timeout]
    nanoseconds from now: for every timeout but zero the deadline after
    [Append] is not the deadline [Prepare] armed. *)
Theorem Append_rearm_differs_from_Prepare us k timeout cb chunk dst :
  m us !! k = None →
  int64 timeout →
  timeout ≠ 0 →
  deadline k (Prepare k timeout cb us).1
    = Some (now us + Duration_mul time_Second timeout)
  ∧ deadline k (Append k chunk dst (Prepare k timeout cb us).1).1.1
    = Some (now us + timeout)
  ∧ deadline k (Append k chunk dst (Prepare k timeout cb us).1).1.1
    ≠ deadline k (Prepare k timeout cb us).1.
Proof.
  intros Hk Hr Hnz.
  destruct (Append_rearm_deadlines_aux us k timeout cb chunk dst Hk) as [Hp Hd].
  split; [exact Hp|]. split; [exact Hd|].
  rewrite Hd, Hp. intros [= Heq].
  apply Hnz, Duration_mul_fixpoint; [exact Hr|lia].
Qed.

(** C7. When the copy fails in an [Append] made right after [Prepare], the
    copy error comes back wrapped with "unable to append chunk to
    destination file: ", the session stays active and the timer is armed
    again, [timeout] nanoseconds from now, which for every timeout but zero
    is not the [time.Second * timeout] that [Prepare] armed. *)
Theorem Append_copy_failure us k timeout cb chunk dst e :
  m us !! k = None →
  int64 timeout →
  timeout ≠ 0 →
  (io_Copy dst chunk).2 = Some e →
  (Append k chunk dst (Prepare k timeout cb us).1).2
    = Some (fmt_Errorf_w AppendPrefix e)
  ∧ Error (fmt_Errorf_w AppendPrefix e)
    = "unable to append chunk to destination file: " +:+ Error e
  ∧ Unwrap (fmt_Errorf_w AppendPrefix e) = Some e
  ∧ m (Append k chunk dst (Prepare k timeout cb us).1).1.1
    = m (Prepare k timeout cb us).1
  ∧ state_of k (Append k chunk dst (Prepare k timeout cb us).1).1.1 = active
  ∧ deadline k (Append k chunk dst (Prepare k timeout cb us).1).1.1
    = Some (now us + timeout)
  ∧ deadline k (Prepare k timeout cb us).1
    = Some (now us + Duration_mul time_Second timeout)
  ∧ now us + timeout ≠ now us + Duration_mul time_Second timeout.
Proof.
  intros Hk Hr Hnz He.
  destruct (Append_rearm_deadlines_aux us k timeout cb chunk dst Hk) as [Hd1 Hd2].
  rewrite (Prepare_then_Append _ _ _ _ _ _ Hk), He. cbn.
  do 3 (split; [reflexivity|]).
  split; [rewrite (Prepare_absent _ _ _ _ Hk); reflexivity|].
  split; [unfold state_of; cbn; rewrite lookup_insert_eq; reflexivity|].
  split; [|split; [exact (Prepare_deadline _ _ _ _ Hk)|]].
  - rewrite (Prepare_then_Append _ _ _ _ _ _ Hk) in Hd2. exact Hd2.
  - intros Heq. apply Hnz, Duration_mul_fixpoint; [exact Hr|lia].
Qed.

End Deadlines.

(** ** Timeouts that are not positive, and appends that keep arriving *)

Section Timeouts.
Context {K : Type} `{Countable K}.
Implicit Types (us : Sched K) (k : K) (u : upload) (tm : Timer K).

Lemma Prepare_due us k timeout cb :
  m us !! k = None →
  due (now us) (length (timers us)) (Prepare k timeout cb us).1
    = (Duration_mul time_Second timeout <=? 0).
Proof.
  intros Hk. rewrite (Prepare_absent _ _ _ _ Hk). unfold due; cbn.
  rewrite lookup_app_r by lia. rewrite Nat.sub_diag. cbn.
  destruct (Z.leb_spec (now us + Duration_mul time_Second timeout) (now us));
    destruct (Z.leb_spec (Duration_mul time_Second timeout) 0);
    try reflexivity; lia.
Qed.

Lemma Prepare_fire us k timeout cb :
  m us !! k = None →
  fire (length (timers us)) (Prepare k timeout cb us).1 =
    mkSched (m us)
            (timers us ++ [mkTimer None k cb])
            (now us) (calls us ++ [(cb, k, None)]).
Proof.
  intros Hk. rewrite (Prepare_absent _ _ _ _ Hk).
  rewrite (fire_present _ _
             (mkTimer (Some (now us + Duration_mul time_Second timeout)) k cb)
             (mkUpload timeout (length (timers us)))); cbn.
  - rewrite delete_insert_eq, (delete_id _ _ Hk).
    rewrite alter_arm_twice.
    rewrite <- (Nat.add_0_r (length (timers us))) at 1.
    rewrite alter_app_r. reflexivity.
  - rewrite lookup_app_r by lia. rewrite Nat.sub_diag. reflexivity.
  - apply lookup_insert_eq.
Qed.

(** C9, as the code has it.  [Prepare] checks nothing about the timeout: on
    a key that is not active it succeeds for every value and arms the timer
    [time.Second * timeout] from now, the product taken in 64 bits.  The
    timer is due as soon as [Prepare] returns exactly when that product is
    not positive; this is so for zero and for the negative timeouts from
    -9223372036 on, where the product does not wrap, and then the expiry
    removes the session and invokes the callback. *)
Theorem Prepare_accepts_any_timeout us k timeout cb :
  m us !! k = None →
  (Prepare k timeout cb us).2 = None
  ∧ m (Prepare k timeout cb us).1 !! k
    = Some (mkUpload timeout (length (timers us)))
  ∧ deadline k (Prepare k timeout cb us).1
    = Some (now us + Duration_mul time_Second timeout)
  ∧ (due (now (Prepare k timeout cb us).1) (length (timers us))
         (Prepare k timeout cb us).1 = true
     ↔ Duration_mul time_Second timeout <= 0)
  ∧ (-9223372036 <= timeout <= 0 →
     Duration_mul time_Second timeout = 1000000000 * timeout
     ∧ Duration_mul time_Second timeout <= 0
     ∧ ∃ us2, expire (length (timers us)) (Prepare k timeout cb us).1 = Some us2
              ∧ calls us2 = calls us ++ [(cb, k, None)]
              ∧ m us2 !! k = None).
Proof.
  intros Hk.
  assert (Hnow : now (Prepare k timeout cb us).1 = now us).
  { rewrite (Prepare_absent _ _ _ _ Hk). reflexivity. }
  split; [rewrite (Prepare_absent _ _ _ _ Hk); reflexivity|].
  split; [rewrite (Prepare_absent _ _ _ _ Hk); cbn; apply lookup_insert_eq|].
  split; [exact (Prepare_deadline _ _ _ _ Hk)|].
  split.
  - rewrite Hnow, (Prepare_due _ _ _ _ Hk). apply Z.leb_le.
  - intros Hr.
    assert (Hmul := Duration_mul_seconds timeout ltac:(lia)).
    split; [exact Hmul|]. split; [lia|].
    exists (fire (length (timers us)) (Prepare k timeout cb us).1).
    split.
    + unfold expire. rewrite Hnow, (Prepare_due _ _ _ _ Hk).
      destruct (Z.leb_spec (Duration_mul time_Second timeout) 0);
        [reflexivity|lia].
    + rewrite (Prepare_fire _ _ _ _ Hk). cbn. split; [reflexivity|exact Hk].
Qed.

End Timeouts.

(** C9 fails as stated: the timeout -10000000000 is negative, [Prepare]
    accepts it, and the product with [time.Second] wraps to a positive
    duration, so the timer is not due when [Prepare] returns. *)
Lemma Prepare_negative_timeout_positive_duration :
  int64 (-10000000000)
  ∧ -10000000000 < 0
  ∧ (Prepare (K:=Z) 1 (-10000000000) 0%nat (NewScheduler 0)).2 = None
  ∧ Duration_mul time_Second (-10000000000) = 8446744073709551616
  ∧ 0 < Duration_mul time_Second (-10000000000)
  ∧ deadline 1 (Prepare (K:=Z) 1 (-10000000000) 0%nat (NewScheduler 0)).1
    = Some 8446744073709551616
  ∧ expire 0 (Prepare (K:=Z) 1 (-10000000000) 0%nat (NewScheduler 0)).1 = None.
Proof.
  unfold int64, min_int64, max_int64.
  split; [lia|]. split; [lia|].
  split; [reflexivity|]. split; [reflexivity|]. split; [reflexivity|].
  split; reflexivity.
Qed.

Section KeepAlive.
Context {K : Type} `{Countable K}.
Implicit Types (us : Sched K) (k : K) (u : upload) (tm : Timer K).

(** A scheduler with one timer, over a stretch of time that ends before the
    timer is due. *)
Lemma sleep_one_timer_early us tm (w d : Z) :
  timers us = [tm] → when tm = Some w → now us + d < w →
  sleep d us = set_now (now us + d) us.
Proof.
  intros Hts Hw Hlt. unfold sleep. rewrite Hts. cbn [length run_due].
  unfold next_due. rewrite Hts. cbn [earliest]. rewrite Hw.
  destruct (Z.leb_spec w (now us + d)); [lia|reflexivity].
Qed.

(** The same over a stretch of time in which the timer comes due, the
    timer's key holding the session that owns it. *)
Lemma sleep_one_timer_due us tm u (w d : Z) :
  timers us = [tm] → when tm = Some w → w <= now us + d →
  m us !! fn_key tm = Some u → timer u = 0%nat →
  sleep d us =
    mkSched (delete (fn_key tm) (m us)) [arm None tm] (now us + d)
            (calls us ++ [(fn_cb tm, fn_key tm, None)]).
Proof.
  intros Hts Hw Hle Hk Hu. unfold sleep. rewrite Hts. cbn [length run_due].
  unfold next_due. rewrite Hts. cbn [earliest]. rewrite Hw.
  destruct (Z.leb_spec w (now us + d)); [|lia].
  rewrite (fire_present _ _ tm u); cbn.
  - rewrite Hts, Hu. reflexivity.
  - rewrite Hts. reflexivity.
  - exact Hk.
Qed.

(** C2. With a timeout of [timeout] seconds and appends [gap] nanoseconds
    apart, where [gap] is more than [timeout] nanoseconds and less than
    [timeout] seconds: the first [Append] finds the session and is served,
    and before the second arrives the timer it armed has fired, the
    callback has been invoked and the session is gone, so the second
    [Append] fails with "upload key does not exist". *)
Theorem timely_appends_still_expire k cb (timeout gap t0 : Z)
    chunk dst chunk' dst' :
  1 <= timeout <= 9223372036 →
  timeout < gap < 1000000000 * timeout →
  calls (sleep gap (Prepare k timeout cb (NewScheduler t0)).1) = []
  ∧ state_of k (sleep gap (Prepare k timeout cb (NewScheduler t0)).1) = active
  ∧ (Append k chunk dst
       (sleep gap (Prepare k timeout cb (NewScheduler t0)).1)).2
    = fmt_Errorf_w AppendPrefix <$> (io_Copy dst chunk).2
  ∧ calls (sleep gap
             (Append k chunk dst
                (sleep gap (Prepare k timeout cb (NewScheduler t0)).1)).1.1)
    = [(cb, k, None)]
  ∧ state_of k
      (sleep gap
         (Append k chunk dst
            (sleep gap (Prepare k timeout cb (NewScheduler t0)).1)).1.1)
    = absent
  ∧ (Append k chunk' dst'
       (sleep gap
          (Append k chunk dst
             (sleep gap (Prepare k timeout cb (NewScheduler t0)).1)).1.1)).2
    = Some ErrNotExist.
Proof.
  intros Ht Hg.
  assert (Hmul := Duration_mul_seconds timeout ltac:(lia)).
  rewrite Prepare_absent by apply lookup_empty. cbn [fst].
  rewrite (sleep_one_timer_early _
             (mkTimer (Some (t0 + Duration_mul time_Second timeout)) k cb)
             (t0 + Duration_mul time_Second timeout));
    [|reflexivity|reflexivity|cbn; lia].
  cbn [NewScheduler set_now m timers now calls length].
  split; [reflexivity|].
  split; [unfold state_of; cbn; rewrite lookup_insert_eq; reflexivity|].
  rewrite (Append_active _ _ (mkUpload timeout 0))
    by (cbn; apply lookup_insert_eq).
  cbn [fst snd].
  split; [reflexivity|].
  rewrite (sleep_one_timer_due _
             (mkTimer (Some (t0 + gap + timeout)) k cb)
             (mkUpload timeout 0) (t0 + gap + timeout));
    [|reflexivity|reflexivity|cbn; lia|cbn; apply lookup_insert_eq|reflexivity].
  cbn [fst snd m timers now calls fn_key fn_cb].
  split; [reflexivity|].
  split; [unfold state_of; cbn; rewrite lookup_delete_eq; reflexivity|].
  rewrite Append_absent by (cbn; apply lookup_delete_eq). reflexivity.
Qed.

End KeepAlive.

(** ** The runtime fires every timer that is due *)

Section Runtime.
Context {K : Type} `{Countable K}.
Implicit Types (us : Sched K) (k : K) (tm : Timer K) (ts : list (Timer K)).

(** The number of armed timers. *)
Lemma armed_alter_None_le ts t :
  (armed (alter (arm None) t ts) <= armed ts)%nat.
Proof.
  revert t. induction ts as [|tm ts IH]; intros [|t]; cbn; try lia.
  specialize (IH t). lia.
Qed.

Lemma armed_alter_None_lt ts t tm (w : Z) :
  ts !! t = Some tm → when tm = Some w →
  (armed (alter (arm None) t ts) < armed ts)%nat.
Proof.
  revert t. induction ts as [|tm' ts IH]; intros [|t] Ht Hw; cbn in *;
    try discriminate.
  - injection Ht as ->. rewrite Hw. lia.
  - specialize (IH t Ht Hw). destruct (when tm'); lia.
Qed.

Lemma fire_armed_lt us t tm (w : Z) :
  timers us !! t = Some tm → when tm = Some w →
  (armed (timers (fire t us)) < armed (timers us))%nat.
Proof.
  intros Ht Hw. destruct (m us !! fn_key tm) as [u|] eqn:Hk.
  - rewrite (fire_present _ _ _ _ Ht Hk). cbn.
    pose proof (armed_alter_None_le (alter (arm None) t (timers us)) (timer u)).
    pose proof (armed_alter_None_lt _ _ _ _ Ht Hw). lia.
  - rewrite (fire_removed _ _ _ Ht Hk). cbn.
    exact (armed_alter_None_lt _ _ _ _ Ht Hw).
Qed.

Lemma armed_le_length ts : (armed ts <= length ts)%nat.
Proof. induction ts as [|tm ts IH]; cbn; [lia|]. destruct (when tm); lia. Qed.

Lemma earliest_Some (at_ : Z) ts i best t w :
  earliest at_ ts i best = Some (t, w) →
  best = Some (t, w)
  ∨ ∃ j tm, t = (i + j)%nat ∧ ts !! j = Some tm ∧ when tm = Some w ∧ w <= at_.
Proof.
  revert i best. induction ts as [|tm ts IH]; intros i best; cbn.
  - intros ->. left. reflexivity.
  - intros He. apply IH in He as [He|(j & tm' & -> & Hj & Hw & Hle)].
    + destruct (when tm) as [w'|] eqn:Hw'; [|left; exact He].
      destruct (Z.leb_spec w' at_) as [Hle|Hgt]; [|left; exact He].
      assert (Hnew : Some (i, w') = Some (t, w) →
                     ∃ j tm0, t = (i + j)%nat ∧ (tm :: ts) !! j = Some tm0
                              ∧ when tm0 = Some w ∧ w <= at_).
      { intros [= <- <-]. exists 0%nat, tm.
        split; [lia|]. split; [reflexivity|]. split; [exact Hw'|exact Hle]. }
      destruct best as [[tb wb]|].
      * destruct (w' <? wb); [right; exact (Hnew He)|left; exact He].
      * right. exact (Hnew He).
    + right. exists (S j), tm'. split; [lia|].
      split; [exact Hj|]. split; [exact Hw|exact Hle].
Qed.

Lemma earliest_None (at_ : Z) ts i best :
  earliest at_ ts i best = None →
  best = None
  ∧ ∀ j tm w, ts !! j = Some tm → when tm = Some w → at_ < w.
Proof.
  revert i best. induction ts as [|tm ts IH]; intros i best; cbn.
  - intros ->. split; [reflexivity|]. intros j tm w Hj. discriminate Hj.
  - intros He. apply IH in He as [Hb Hall].
    destruct (when tm) as [w'|] eqn:Hw'.
    + destruct (Z.leb_spec w' at_) as [Hle|Hgt].
      * destruct best as [[tb wb]|]; [|discriminate Hb].
        destruct (w' <? wb); discriminate Hb.
      * split; [exact Hb|]. intros [|j] tm0 w Hj Hw; cbn in Hj.
        -- injection Hj as <-. rewrite Hw' in Hw. injection Hw as <-. exact Hgt.
        -- exact (Hall j tm0 w Hj Hw).
    + split; [exact Hb|]. intros [|j] tm0 w Hj Hw; cbn in Hj.
      * injection Hj as <-. rewrite Hw' in Hw. discriminate Hw.
      * exact (Hall j tm0 w Hj Hw).
Qed.

Lemma earliest_unarmed (at_ : Z) ts i :
  armed ts = 0%nat → earliest at_ ts i None = None.
Proof.
  revert i. induction ts as [|tm ts IH]; intros i Harm; [reflexivity|].
  cbn in Harm |- *. destruct (when tm); [discriminate Harm|].
  apply IH. exact Harm.
Qed.

Lemma next_due_None (at_ : Z) us t :
  next_due at_ us = None → due at_ t us = false.
Proof.
  intros Hn. apply earliest_None in Hn as [_ Hall]. unfold due.
  destruct (timers us !! t) as [tm|] eqn:Ht; [|reflexivity].
  destruct (when tm) as [w|] eqn:Hw; [|reflexivity].
  specialize (Hall t tm w Ht Hw). apply Z.leb_gt. exact Hall.
Qed.

Lemma run_due_complete fuel (at_ : Z) us :
  (armed (timers us) <= fuel)%nat →
  next_due at_ (run_due fuel at_ us) = None.
Proof.
  revert us. induction fuel as [|fuel IH]; intros us Hfuel; cbn.
  - apply earliest_unarmed. lia.
  - destruct (next_due at_ us) as [[t w]|] eqn:Hn; [|exact Hn].
    apply IH.
    apply earliest_Some in Hn as [Hn|(j & tm & -> & Hj & Hw & _)];
      [discriminate Hn|].
    pose proof (fire_armed_lt (set_now (Z.max (now us) w) us) (0 + j) tm w Hj Hw)
      as Hlt.
    cbn in Hlt |- *. lia.
Qed.

(** When [sleep] returns no timer is due any more: the fuel it gives
    [run_due], one step per allocated timer, is enough. *)
Lemma sleep_complete (d : Z) us t :
  due (now (sleep d us)) t (sleep d us) = false.
Proof.
  unfold sleep. cbn.
  apply (next_due_None _ (set_now _ _)).
  unfold next_due. cbn. apply run_due_complete. apply armed_le_length.
Qed.

End Runtime.

(** ** Timers over whole runs *)

Section Traces.
Context {K : Type} `{Countable K}.
Implicit Types (us : Sched K) (k : K) (u : upload) (tm : Timer K).

Lemma lookup_alter_arm_None (ts : list (Timer K)) (t t' : nat) tm :
  alter (arm None) t' ts !! t = Some tm →
  ∃ tm0, ts !! t = Some tm0 ∧ fn_key tm = fn_key tm0 ∧ fn_cb tm = fn_cb tm0
         ∧ (when tm = None ∨ (t ≠ t' ∧ tm = tm0)).
Proof.
  rewrite list_lookup_alter. case_decide as Heq.
  - subst t'. destruct (ts !! t) as [tm0|]; cbn; [|discriminate].
    intros [= <-]. exists tm0. repeat split. left. reflexivity.
  - intros Ht. exists tm. repeat split; [exact Ht|].
    right. split; [congruence|reflexivity].
Qed.

Lemma retired_Finish t k us : retired t us → retired t (Finish k us).1.
Proof.
  intros (Hlen & Hoff & Hfree).
  destruct (m us !! k) as [u|] eqn:Hk.
  - rewrite (Finish_active _ _ _ Hk). unfold retired; cbn.
    split; [rewrite length_alter; exact Hlen|]. split.
    + intros tm Ht. apply lookup_alter_arm_None in Ht
        as (tm0 & Ht0 & _ & _ & [Hn|[_ ->]]); [exact Hn|exact (Hoff _ Ht0)].
    + intros k' u' Hk'. apply lookup_delete_Some in Hk' as [_ Hk'].
      exact (Hfree _ _ Hk').
  - rewrite (Finish_absent _ _ Hk). repeat split; assumption.
Qed.

Lemma retired_fire t t' us : retired t us → retired t (fire t' us).
Proof.
  intros Hr. unfold fire. destruct (timers us !! t') as [tm'|]; [|exact Hr].
  assert (Hr1 : retired t (set_timers (alter (arm None) t') us)).
  { destruct Hr as (Hlen & Hoff & Hfree). unfold retired; cbn.
    split; [rewrite length_alter; exact Hlen|]. split; [|exact Hfree].
    intros tm Ht. apply lookup_alter_arm_None in Ht
      as (tm0 & Ht0 & _ & _ & [Hn|[_ ->]]); [exact Hn|exact (Hoff _ Ht0)]. }
  unfold expiry_fn.
  destruct (m (set_timers (alter (arm None) t') us) !! fn_key tm'); [|exact Hr1].
  pose proof (retired_Finish t (fn_key tm') _ Hr1) as Hr2.
  destruct (Finish (fn_key tm') (set_timers (alter (arm None) t') us))
    as [us1 err]. exact Hr2.
Qed.

Lemma retired_step t us ev : retired t us → retired t (step us ev).
Proof.
  intros Hr. destruct ev as [k timeout cb|k chunk dst|k|d|t']; cbn.
  - destruct Hr as (Hlen & Hoff & Hfree).
    destruct (m us !! k) as [u|] eqn:Hk.
    + rewrite (Prepare_active _ _ _ _ _ Hk). repeat split; assumption.
    + rewrite (Prepare_absent _ _ _ _ Hk). unfold retired; cbn.
      split; [rewrite length_app; cbn; lia|]. split.
      * intros tm. rewrite lookup_app_l by exact Hlen. apply Hoff.
      * intros k' u'. rewrite lookup_insert. case_decide as Hkk.
        -- intros [= <-]. cbn. lia.
        -- apply Hfree.
  - destruct Hr as (Hlen & Hoff & Hfree).
    destruct (m us !! k) as [u|] eqn:Hk.
    + rewrite (Append_active _ _ _ _ _ Hk). unfold retired; cbn.
      split; [rewrite length_alter; exact Hlen|]. split; [|exact Hfree].
      intros tm. rewrite list_lookup_alter_ne by exact (Hfree _ _ Hk).
      apply Hoff.
    + rewrite (Append_absent _ _ _ _ Hk). repeat split; assumption.
  - apply retired_Finish. exact Hr.
  - unfold sleep. set (at_ := now us + d). clearbody at_.
    assert (Hrun : ∀ fuel us0, retired t us0 → retired t (run_due fuel at_ us0)).
    { induction fuel as [|fuel IH]; intros us0 Hr0; cbn; [exact Hr0|].
      destruct (next_due at_ us0) as [[t1 w1]|]; [|exact Hr0].
      apply IH. apply retired_fire. exact Hr0. }
    exact (Hrun _ _ Hr).
  - unfold expire. destruct (due (now us) t' us); cbn; [|exact Hr].
    apply retired_fire. exact Hr.
Qed.

Lemma retired_run t evs us : retired t us → retired t (run evs us).
Proof.
  revert us. induction evs as [|ev evs IH]; intros us Hr; cbn; [exact Hr|].
  apply IH. apply retired_step. exact Hr.
Qed.

Lemma retired_not_due t us (at_ : Z) : retired t us → due at_ t us = false.
Proof.
  intros (_ & Hoff & _). unfold due.
  destruct (timers us !! t) as [tm|] eqn:Ht; [|reflexivity].
  rewrite (Hoff tm eq_refl). reflexivity.
Qed.

(** After [Prepare] and [Finish] of a key the timer is retired. *)
Lemma Prepare_Finish_retired us k timeout cb :
  m us !! k = None →
  (∀ k' u', m us !! k' = Some u' → (timer u' < length (timers us))%nat) →
  retired (length (timers us)) (Finish k (Prepare k timeout cb us).1).1.
Proof.
  intros Hk Hin. rewrite (Prepare_absent _ _ _ _ Hk). cbn.
  rewrite (Finish_active _ _ (mkUpload timeout (length (timers us))))
    by (cbn; apply lookup_insert_eq).
  unfold retired; cbn. rewrite length_alter, length_app. cbn.
  split; [lia|]. split.
  - rewrite list_lookup_alter_eq. intros tm.
    destruct ((timers us ++ _) !! length (timers us)); cbn; [|discriminate].
    intros [= <-]. reflexivity.
  - intros k' u'. rewrite delete_insert_eq, (delete_id _ _ Hk). intros Hk'.
    specialize (Hin _ _ Hk'). lia.
Qed.

End Traces.

Section Ownership.
Context {K : Type} `{Countable K}.
Implicit Types (us : Sched K) (k : K) (u : upload) (tm : Timer K).

Lemma owned_NewScheduler (t0 : Z) : owned (NewScheduler (K:=K) t0).
Proof.
  split.
  - intros k u Hk. cbn in Hk. rewrite lookup_empty in Hk. discriminate Hk.
  - intros t tm w Ht. discriminate Ht.
Qed.

Lemma owned_timer_allocated us k u :
  owned us → m us !! k = Some u → (timer u < length (timers us))%nat.
Proof.
  intros [Hses _] Hk. destruct (Hses _ _ Hk) as (tm & Ht & _).
  exact (lookup_lt_Some _ _ _ Ht).
Qed.

Lemma owned_Prepare us k timeout cb :
  owned us → owned (Prepare k timeout cb us).1.
Proof.
  intros Hown. destruct (m us !! k) as [u|] eqn:Hk.
  - rewrite (Prepare_active _ _ _ _ _ Hk). exact Hown.
  - rewrite (Prepare_absent _ _ _ _ Hk). destruct Hown as [Hses Harm].
    split; cbn.
    + intros k' u'. rewrite lookup_insert. case_decide as Hkk.
      * intros [= <-]. subst k'. cbn.
        rewrite lookup_app_r by lia. rewrite Nat.sub_diag. cbn. eauto.
      * intros Hk'. destruct (Hses _ _ Hk') as (tm & Ht & Hkey).
        exists tm. split; [|exact Hkey].
        rewrite lookup_app_l by exact (lookup_lt_Some _ _ _ Ht). exact Ht.
    + intros t tm w Ht Hw.
      destruct (decide (t < length (timers us))%nat) as [Hlt|Hge].
      * rewrite lookup_app_l in Ht by exact Hlt.
        destruct (Harm _ _ _ Ht Hw) as (u' & Hk' & Htu).
        exists u'. split; [|exact Htu].
        rewrite lookup_insert_ne; [exact Hk'|]. congruence.
      * rewrite lookup_app_r in Ht by lia.
        destruct (t - length (timers us))%nat as [|j] eqn:Hj; cbn in Ht;
          [|discriminate Ht].
        injection Ht as <-. cbn. rewrite lookup_insert_eq.
        eexists. split; [reflexivity|]. cbn. lia.
Qed.

Lemma owned_Append us k chunk dst :
  owned us → owned (Append k chunk dst us).1.1.
Proof.
  intros Hown. destruct (m us !! k) as [u|] eqn:Hk.
  - rewrite (Append_active _ _ _ _ _ Hk). destruct Hown as [Hses Harm].
    split; cbn.
    + intros k' u' Hk'. destruct (Hses _ _ Hk') as (tm & Ht & Hkey).
      rewrite list_lookup_alter. case_decide as Heq.
      * rewrite <- Heq in Ht. rewrite Ht. cbn. eauto.
      * eauto.
    + intros t tm w. rewrite list_lookup_alter. case_decide as Heq.
      * subst t. destruct (Hses _ _ Hk) as (tm0 & Ht0 & Hkey).
        rewrite Ht0. cbn. intros [= <-] _. cbn. rewrite Hkey. eauto.
      * apply Harm.
  - rewrite (Append_absent _ _ _ _ Hk). exact Hown.
Qed.

Lemma owned_stop us t : owned us → owned (set_timers (alter (arm None) t) us).
Proof.
  intros [Hses Harm]. split; cbn.
  - intros k u Hk. destruct (Hses _ _ Hk) as (tm & Ht & Hkey).
    rewrite list_lookup_alter. case_decide as Heq.
    + rewrite <- Heq in Ht. rewrite Ht. cbn. eauto.
    + eauto.
  - intros t' tm w Ht Hw. apply lookup_alter_arm_None in Ht
      as (tm0 & Ht0 & Hkey & _ & [Hn|[_ ->]]); [congruence|].
    exact (Harm _ _ _ Ht0 Hw).
Qed.

Lemma owned_Finish us k : owned us → owned (Finish k us).1.
Proof.
  intros Hown. destruct (m us !! k) as [u|] eqn:Hk.
  - rewrite (Finish_active _ _ _ Hk). destruct Hown as [Hses Harm].
    split; cbn.
    + intros k' u' Hk'. apply lookup_delete_Some in Hk' as [_ Hk'].
      destruct (Hses _ _ Hk') as (tm & Ht & Hkey).
      rewrite list_lookup_alter. case_decide as Heq.
      * rewrite <- Heq in Ht. rewrite Ht. cbn. eauto.
      * eauto.
    + intros t tm w Ht Hw. apply lookup_alter_arm_None in Ht
        as (tm0 & Ht0 & Hkey & _ & [Hn|[Hne ->]]); [congruence|].
      destruct (Harm _ _ _ Ht0 Hw) as (u' & Hk' & Htu).
      exists u'. split; [|exact Htu].
      rewrite lookup_delete_ne; [exact Hk'|].
      intros Heq. rewrite <- Heq, Hk in Hk'. congruence.
  - rewrite (Finish_absent _ _ Hk). exact Hown.
Qed.

Lemma owned_fire us t : owned us → owned (fire t us).
Proof.
  intros Hown. unfold fire. destruct (timers us !! t) as [tm|]; [|exact Hown].
  pose proof (owned_stop us t Hown) as Hown1. unfold expiry_fn.
  destruct (m (set_timers (alter (arm None) t) us) !! fn_key tm); [|exact Hown1].
  pose proof (owned_Finish _ (fn_key tm) Hown1) as Hown2.
  destruct (Finish (fn_key tm) (set_timers (alter (arm None) t) us))
    as [us1 err]. exact Hown2.
Qed.

Lemma owned_step us ev : owned us → owned (step us ev).
Proof.
  intros Hown. destruct ev as [k timeout cb|k chunk dst|k|d|t]; cbn.
  - apply owned_Prepare. exact Hown.
  - apply owned_Append. exact Hown.
  - apply owned_Finish. exact Hown.
  - unfold sleep. set (at_ := now us + d). clearbody at_.
    assert (Hrun : ∀ fuel us0, owned us0 → owned (run_due fuel at_ us0)).
    { induction fuel as [|fuel IH]; intros us0 Hown0; cbn; [exact Hown0|].
      destruct (next_due at_ us0) as [[t1 w1]|]; [|exact Hown0].
      apply IH. apply owned_fire. exact Hown0. }
    exact (Hrun _ _ Hown).
  - unfold expire. destruct (due (now us) t us); cbn; [|exact Hown].
    apply owned_fire. exact Hown.
Qed.

Lemma owned_run evs us : owned us → owned (run evs us).
Proof.
  revert us. induction evs as [|ev evs IH]; intros us Hown; cbn; [exact Hown|].
  apply IH. apply owned_step. exact Hown.
Qed.

(** In a scheduler reached through its operations a timer that expires
    finds its key in the registry, so its callback is invoked. *)
Lemma owned_expire_invokes us t tm us' :
  owned us → timers us !! t = Some tm → expire t us = Some us' →
  calls us' = calls us ++ [(fn_cb tm, fn_key tm, None)]
  ∧ m us' = delete (fn_key tm) (m us).
Proof.
  intros [_ Harm] Ht Hex. apply expire_Some in Hex as [Hdue ->].
  unfold due in Hdue. rewrite Ht in Hdue.
  destruct (when tm) as [w|] eqn:Hw; [|discriminate Hdue].
  destruct (Harm _ _ _ Ht Hw) as (u & Hk & _).
  rewrite (fire_present _ _ _ _ Ht Hk). split; reflexivity.
Qed.

(** Once it has fired, the timer of a session is retired. *)
Lemma owned_fire_retired us t tm (w : Z) :
  owned us → timers us !! t = Some tm → when tm = Some w →
  retired t (fire t us).
Proof.
  intros [Hses Harm] Ht Hw.
  destruct (Harm _ _ _ Ht Hw) as (u & Hk & Htu).
  rewrite (fire_present _ _ _ _ Ht Hk). unfold retired; cbn.
  rewrite !length_alter. split; [exact (lookup_lt_Some _ _ _ Ht)|]. split.
  - rewrite Htu, alter_arm_twice, list_lookup_alter_eq, Ht. cbn.
    intros tm' [= <-]. reflexivity.
  - intros k' u' Hk' Heq. apply lookup_delete_Some in Hk' as [Hne Hk'].
    destruct (Hses _ _ Hk') as (tm' & Ht' & Hkey).
    rewrite Heq, Ht in Ht'. injection Ht' as <-. exact (Hne Hkey).
Qed.

End Ownership.

(** ** What an expiry does *)

Section Expiry.
Context {K : Type} `{Countable K}.
Implicit Types (us : Sched K) (k : K) (u : upload) (tm : Timer K).

(** C3. When the timer armed by [Prepare k timeout cb] fires, [cb] is
    invoked once, with [k] and the result of the internal [Finish], if [k]
    is in the registry at that moment, and not at all if it is not; that
    result is no error; the timer is left disarmed.  After [Prepare] and
    then [Finish] of the same key the timer cannot expire, whatever is done
    with the scheduler afterwards and however late the clock, and its
    closure, were it run, would not invoke [cb].  In a scheduler where every
    armed timer belongs to a session, as in every scheduler reached through
    the operations, an expiring timer finds its key, invokes [cb] with no
    error, and never expires again. *)
Theorem expiry_invokes_callback :
  (∀ us t tm us',
      timers us !! t = Some tm →
      expire t us = Some us' →
      match m us !! fn_key tm with
      | Some _ =>
          calls us' =
            calls us ++
              [(fn_cb tm, fn_key tm,
                (Finish (fn_key tm) (timer_Stop t us)).2)]
          ∧ (Finish (fn_key tm) (timer_Stop t us)).2 = None
          ∧ m us' = delete (fn_key tm) (m us)
      | None => calls us' = calls us ∧ m us' = m us
      end
      ∧ ∀ at_, due at_ t us' = false)
  ∧ (∀ us k timeout cb evs,
        m us !! k = None →
        owned us →
        timers (Prepare k timeout cb us).1 !! length (timers us)
          = Some (mkTimer (Some (now us + Duration_mul time_Second timeout)) k cb)
        ∧ (∀ at_, due at_ (length (timers us))
                    (run evs (Finish k (Prepare k timeout cb us).1).1) = false)
        ∧ expire (length (timers us))
            (run evs (Finish k (Prepare k timeout cb us).1).1) = None
        ∧ calls (fire (length (timers us)) (Finish k (Prepare k timeout cb us).1).1)
          = calls us)
  ∧ (∀ us t tm us' evs,
        owned us →
        timers us !! t = Some tm →
        expire t us = Some us' →
        calls us' = calls us ++ [(fn_cb tm, fn_key tm, None)]
        ∧ m us' = delete (fn_key tm) (m us)
        ∧ expire t (run evs us') = None).
Proof.
  split; [|split].
  - intros us t tm us' Ht Hex.
    apply expire_Some in Hex as [_ ->].
    split; [|intros at_; apply fire_disarms].
    destruct (m us !! fn_key tm) as [u|] eqn:Hk.
    + rewrite (fire_present _ _ _ _ Ht Hk). cbn.
      assert (Hfin : (Finish (fn_key tm) (timer_Stop t us)).2 = None).
      { rewrite (Finish_active _ _ u); [reflexivity|exact Hk]. }
      rewrite Hfin. repeat split.
    + rewrite (fire_removed _ _ _ Ht Hk). split; reflexivity.
  - intros us k timeout cb evs Hk Hown.
    assert (Hret : retired (length (timers us))
                     (run evs (Finish k (Prepare k timeout cb us).1).1)).
    { apply retired_run, Prepare_Finish_retired; [exact Hk|].
      intros k' u' Hk'. exact (owned_timer_allocated _ _ _ Hown Hk'). }
    split; [|split; [|split]].
    + rewrite (Prepare_absent _ _ _ _ Hk). cbn.
      rewrite lookup_app_r by lia. rewrite Nat.sub_diag. reflexivity.
    + intros at_. exact (retired_not_due _ _ _ Hret).
    + unfold expire. rewrite (retired_not_due _ _ _ Hret). reflexivity.
    + rewrite (Prepare_absent _ _ _ _ Hk). cbn.
      rewrite (Finish_active _ _ (mkUpload timeout (length (timers us))))
        by (cbn; apply lookup_insert_eq).
      unfold fire; cbn. rewrite list_lookup_alter_eq.
      rewrite lookup_app_r by lia. rewrite Nat.sub_diag. cbn.
      rewrite expiry_fn_absent; [reflexivity|].
      cbn. apply lookup_delete_eq.
  - intros us t tm us' evs Hown Ht Hex.
    destruct (owned_expire_invokes _ _ _ _ Hown Ht Hex) as [Hc Hm].
    split; [exact Hc|]. split; [exact Hm|].
    apply expire_Some in Hex as [Hdue ->].
    unfold due in Hdue. rewrite Ht in Hdue.
    destruct (when tm) as [w|] eqn:Hw; [|discriminate Hdue].
    pose proof (retired_run t evs _ (owned_fire_retired _ _ _ _ Hown Ht Hw)) as Hret.
    unfold expire. rewrite (retired_not_due _ _ _ Hret). reflexivity.
Qed.

(** Every scheduler reached from a new one is of that kind. *)
Lemma owned_reachable (t0 : Z) evs : owned (run evs (NewScheduler (K:=K) t0)).
Proof. apply owned_run, owned_NewScheduler. Qed.

End Expiry.

(** ** The theorems at work on [sched0] and [sched1] *)

Lemma int64_2 : int64 2.
Proof. unfold int64, min_int64, max_int64. lia. Qed.

Lemma Append_rearm_differs_from_Prepare_witness :
  m sched0 !! 1 = None
  ∧ deadline 1 sched1 = Some 2000000000
  ∧ deadline 1 (Append 1 chunk3 sink sched1).1.1 = Some 2.
Proof.
  split; [reflexivity|].
  destruct (Append_rearm_differs_from_Prepare sched0 1 2 0%nat chunk3 sink
              eq_refl int64_2 ltac:(discriminate)) as (Hp & Ha & _).
  split; [exact Hp|exact Ha].
Defined.

Lemma timely_appends_still_expire_witness :
  2 < 1000000000 < 1000000000 * 2
  ∧ calls (sleep 1000000000 (Append 1 chunk3 sink (sleep 1000000000 sched1)).1.1)
    = [(0%nat, 1, None)].
Proof.
  split; [lia|].
  destruct (timely_appends_still_expire (K:=Z) 1 0%nat 2 1000000000 0
              chunk3 sink chunk3 sink ltac:(lia) ltac:(lia))
    as (_ & _ & _ & Hc & _).
  exact Hc.
Defined.

(** Ten appends, one every second, to an upload prepared with a timeout of 2:
    the first is served, the callback is invoked before the second, and the
    other nine find no upload. *)
Example ten_appends_one_second_apart :
  (append_every 10 1000000000 1 chunk3 sink sched1).2
    = None :: replicate 9 (Some ErrNotExist)
  ∧ calls (append_every 10 1000000000 1 chunk3 sink sched1).1.1
    = [(0%nat, 1, None)].
Proof. split; vm_compute; reflexivity. Qed.

Lemma expiry_invokes_callback_witness :
  expire 0 (set_now 2000000000 sched1)
    = Some (fire 0 (set_now 2000000000 sched1))
  ∧ calls (fire 0 (set_now 2000000000 sched1)) = [(0%nat, 1, None)]
  ∧ expire 0 (run [EvSleep 5000000000; EvPrepare 1 2 0%nat]
                  (Finish 1 (Prepare 1 2 0%nat sched0).1).1) = None.
Proof.
  split; [reflexivity|].
  destruct (expiry_invokes_callback (K:=Z)) as (Hfire & Hstop & _).
  split.
  - pose proof (Hfire (set_now 2000000000 sched1) 0%nat
                  (mkTimer (Some 2000000000) 1 0%nat) _ eq_refl eq_refl)
      as [Hm _].
    vm_compute in Hm. destruct Hm as (Hc & _ & _). exact Hc.
  - destruct (Hstop sched0 1 2 0%nat
                [EvSleep 5000000000; EvPrepare 1 2 0%nat]
                eq_refl (owned_NewScheduler 0)) as (_ & _ & He & _).
    exact He.
Defined.

Lemma key_lifecycle_witness :
  state_of 1 sched1 = active
  ∧ Prepare 1 7 3%nat sched1 = (sched1, Some ErrExists)
  ∧ state_of 1 (Finish 1 sched1).1 = absent
  ∧ state_of 1 sched0 = absent
  ∧ state_of 1 (Prepare 1 7 3%nat sched0).1 = active.
Proof.
  split; [reflexivity|].
  pose proof (key_lifecycle sched1 1) as [Hact _].
  pose proof (key_lifecycle sched0 1) as [Habs _].
  change (state_of 1 sched1) with (@active) in Hact.
  change (state_of 1 sched0) with (@absent) in Habs.
  destruct Hact as (Hp & _ & _ & Hf).
  destruct Habs as (Hp0 & _ & _).
  split; [exact (Hp 7 3%nat)|]. split; [exact Hf|].
  split; [reflexivity|]. exact (proj2 (Hp0 7 3%nat)).
Defined.

Lemma Prepare_duplicate_witness :
  m sched1 !! 1 = Some (mkUpload 2 0)
  ∧ Prepare 1 7 3%nat sched1 = (sched1, Some ErrExists).
Proof.
  split; [reflexivity|].
  exact (proj1 (Prepare_duplicate sched1 1 (mkUpload 2 0) 7 3%nat eq_refl)).
Defined.

Lemma unknown_key_rejected_witness :
  m sched1 !! 5 = None
  ∧ Append 5 chunk3 sink sched1 = (sched1, sink, Some ErrNotExist)
  ∧ Finish 5 sched1 = (sched1, Some ErrNotExist).
Proof.
  split; [reflexivity|].
  destruct (unknown_key_rejected sched1 5 chunk3 sink eq_refl) as (Ha & Hf & _).
  split; [exact Ha|exact Hf].
Defined.

Lemma Append_copy_failure_witness :
  (io_Copy full_sink chunk3).2 = Some (errors_New "no space left on device")
  ∧ (Append 1 chunk3 full_sink sched1).2
    = Some (fmt_Errorf_w AppendPrefix (errors_New "no space left on device"))
  ∧ state_of 1 (Append 1 chunk3 full_sink sched1).1.1 = active
  ∧ deadline 1 (Append 1 chunk3 full_sink sched1).1.1 = Some 2
  ∧ deadline 1 sched1 = Some 2000000000.
Proof.
  split; [reflexivity|].
  destruct (Append_copy_failure sched0 1 2 0%nat chunk3 full_sink
              (errors_New "no space left on device")
              eq_refl int64_2 ltac:(discriminate) eq_refl)
    as (He & _ & _ & _ & Hs & Hd & Hp & _).
  split; [exact He|]. split; [exact Hs|]. split; [exact Hd|exact Hp].
Defined.

Lemma Finish_then_Finish_witness :
  m sched1 !! 1 = Some (mkUpload 2 0)
  ∧ (Finish 1 sched1).2 = None
  ∧ m (Finish 1 sched1).1 !! 1 = None
  ∧ Finish 1 (Finish 1 sched1).1 = ((Finish 1 sched1).1, Some ErrNotExist).
Proof.
  split; [reflexivity|].
  destruct (Finish_then_Finish sched1 1 (mkUpload 2 0) eq_refl)
    as (Hr & _ & Hk & _ & _ & Hf & _).
  split; [exact Hr|]. split; [exact Hk|exact Hf].
Defined.

Lemma Prepare_accepts_any_timeout_witness :
  m sched0 !! 1 = None
  ∧ -9223372036 <= -3 <= 0
  ∧ (Prepare 1 (-3) 0%nat sched0).2 = None
  ∧ deadline 1 (Prepare 1 (-3) 0%nat sched0).1 = Some (-3000000000)
  ∧ Duration_mul time_Second (-3) <= 0.
Proof.
  split; [reflexivity|]. split; [lia|].
  destruct (Prepare_accepts_any_timeout sched0 1 (-3) 0%nat eq_refl)
    as (Hr & _ & Hd & _ & Hneg).
  split; [exact Hr|]. split; [exact Hd|].
  exact (proj1 (proj2 (Hneg ltac:(lia)))).
Defined.

Lemma Append_frame_witness :
  m (Append 1 chunk3 sink sched1).1.1 = m sched1
  ∧ timers (Append 1 chunk3 sink sched1).1.1 !! 7%nat = timers sched1 !! 7%nat.
Proof.
  destruct (Append_frame sched1 1 chunk3 sink) as (Hm & _ & _ & _ & _ & _ & Ht & _).
  split; [exact Hm|].
  apply Ht. intros u Hu. injection Hu as <-. discriminate.
Defined.

(** * upsched: more of what the scheduler keeps *)

Section Invariants.
Context {K : Type} `{Countable K}.
Implicit Types (us : Sched K) (k : K) (u : upload) (tm : Timer K).

Lemma owned_injective us k1 k2 u1 u2 :
  owned us → m us !! k1 = Some u1 → m us !! k2 = Some u2 →
  timer u1 = timer u2 → k1 = k2.
Proof.
  intros [Hses _] H1 H2 Heq.
  destruct (Hses _ _ H1) as (tm1 & Ht1 & <-).
  destruct (Hses _ _ H2) as (tm2 & Ht2 & <-).
  rewrite Heq, Ht2 in Ht1. congruence.
Qed.

Lemma owned_set_now (n : Z) us : owned us → owned (set_now n us).
Proof. intros Hown. exact Hown. Qed.

Lemma all_armed_Prepare us k timeout cb :
  all_armed us → all_armed (Prepare k timeout cb us).1.
Proof.
  intros Harm. destruct (m us !! k) as [u|] eqn:Hk.
  - rewrite (Prepare_active _ _ _ _ _ Hk). exact Harm.
  - rewrite (Prepare_absent _ _ _ _ Hk). intros k' u'. cbn.
    rewrite lookup_insert. case_decide as Hkk.
    + intros [= <-]. cbn. rewrite lookup_app_r by lia.
      rewrite Nat.sub_diag. cbn. eauto.
    + intros Hk'. destruct (Harm _ _ Hk') as (tm & w & Ht & Hw).
      exists tm, w. split; [|exact Hw].
      rewrite lookup_app_l by exact (lookup_lt_Some _ _ _ Ht). exact Ht.
Qed.

Lemma all_armed_Append us k chunk dst :
  all_armed us → all_armed (Append k chunk dst us).1.1.
Proof.
  intros Harm. destruct (m us !! k) as [u|] eqn:Hk.
  - rewrite (Append_active _ _ _ _ _ Hk). intros k' u' Hk'. cbn in Hk' |- *.
    destruct (Harm _ _ Hk') as (tm & w & Ht & Hw).
    rewrite list_lookup_alter. case_decide as Heq.
    + rewrite <- Heq in Ht. rewrite Ht. cbn. eauto.
    + eauto.
  - rewrite (Append_absent _ _ _ _ Hk). exact Harm.
Qed.

Lemma all_armed_Finish us k :
  owned us → all_armed us → all_armed (Finish k us).1.
Proof.
  intros Hown Harm. destruct (m us !! k) as [u|] eqn:Hk.
  - rewrite (Finish_active _ _ _ Hk). intros k' u' Hk'. cbn in Hk' |- *.
    apply lookup_delete_Some in Hk' as [Hne Hk'].
    destruct (Harm _ _ Hk') as (tm & w & Ht & Hw).
    exists tm, w. split; [|exact Hw].
    rewrite list_lookup_alter_ne; [exact Ht|].
    intros Heq. exact (Hne (owned_injective _ _ _ _ _ Hown Hk Hk' Heq)).
  - rewrite (Finish_absent _ _ Hk). exact Harm.
Qed.

Lemma all_armed_fire us t :
  owned us → all_armed us → all_armed (fire t us).
Proof.
  intros Hown Harm. destruct (timers us !! t) as [tm|] eqn:Ht.
  - destruct (m us !! fn_key tm) as [u|] eqn:Hk.
    + rewrite (fire_present _ _ _ _ Ht Hk). intros k' u' Hk'. cbn in Hk' |- *.
      apply lookup_delete_Some in Hk' as [Hne Hk'].
      destruct (Harm _ _ Hk') as (tm' & w & Ht' & Hw).
      exists tm', w. split; [|exact Hw].
      rewrite !list_lookup_alter_ne; [exact Ht'| |].
      * intros Heq. subst t. destruct Hown as [Hses _].
        destruct (Hses _ _ Hk') as (tm0 & Ht0 & Hkey). congruence.
      * intros Heq. exact (Hne (owned_injective _ _ _ _ _ Hown Hk Hk' Heq)).
    + rewrite (fire_removed _ _ _ Ht Hk). intros k' u' Hk'. cbn in Hk' |- *.
      destruct (Harm _ _ Hk') as (tm' & w & Ht' & Hw).
      exists tm', w. split; [|exact Hw].
      rewrite list_lookup_alter_ne; [exact Ht'|].
      intros Heq. subst t. destruct Hown as [Hses _].
      destruct (Hses _ _ Hk') as (tm0 & Ht0 & Hkey). congruence.
  - rewrite (fire_unallocated _ _ Ht). exact Harm.
Qed.

Lemma kept_run_due fuel (at_ : Z) us :
  owned us → all_armed us →
  owned (run_due fuel at_ us) ∧ all_armed (run_due fuel at_ us).
Proof.
  revert us. induction fuel as [|fuel IH]; intros us Hown Harm; cbn;
    [split; assumption|].
  destruct (next_due at_ us) as [[t w]|]; [|split; assumption].
  apply IH.
  - apply owned_fire. exact Hown.
  - apply all_armed_fire; [exact Hown|exact Harm].
Qed.

Lemma kept_step us ev :
  owned us → all_armed us → owned (step us ev) ∧ all_armed (step us ev).
Proof.
  intros Hown Harm. split; [apply owned_step; exact Hown|].
  destruct ev as [k timeout cb|k chunk dst|k|d|t]; cbn.
  - apply all_armed_Prepare. exact Harm.
  - apply all_armed_Append. exact Harm.
  - apply all_armed_Finish; assumption.
  - exact (proj2 (kept_run_due _ _ _ Hown Harm)).
  - unfold expire. destruct (due (now us) t us); cbn; [|exact Harm].
    apply all_armed_fire; assumption.
Qed.

Lemma kept_run evs us :
  owned us → all_armed us → owned (run evs us) ∧ all_armed (run evs us).
Proof.
  revert us. induction evs as [|ev evs IH]; intros us Hown Harm; cbn;
    [split; assumption|].
  destruct (kept_step us ev Hown Harm) as [Hown' Harm']. exact (IH _ Hown' Harm').
Qed.

Lemma all_armed_NewScheduler (t0 : Z) : all_armed (NewScheduler (K:=K) t0).
Proof. intros k u Hk. cbn in Hk. rewrite lookup_empty in Hk. discriminate Hk. Qed.

Lemma kept_reachable (t0 : Z) evs :
  owned (run evs (NewScheduler (K:=K) t0))
  ∧ all_armed (run evs (NewScheduler (K:=K) t0)).
Proof. apply kept_run; [apply owned_NewScheduler|apply all_armed_NewScheduler]. Qed.

Lemma deadline_of us k u tm (w : Z) :
  m us !! k = Some u → timers us !! timer u = Some tm → when tm = Some w →
  deadline k us = Some w.
Proof.
  intros Hk Ht Hw. unfold deadline. rewrite Hk. cbn. rewrite Ht. cbn. exact Hw.
Qed.

Lemma all_armed_deadline us k u :
  all_armed us → m us !! k = Some u → ∃ w, deadline k us = Some w.
Proof.
  intros Harm Hk. destruct (Harm _ _ Hk) as (tm & w & Ht & Hw).
  exists w. unfold deadline. rewrite Hk. cbn. rewrite Ht. cbn. exact Hw.
Qed.

(** X1. [Prepare] of a key that is not active followed by [Finish] of that
    key returns no error and leaves the scheduler as it was, but for one more
    timer, which is stopped: the registry, the clock and the callbacks
    invoked are the same. *)
Theorem Prepare_Finish_round_trip us k timeout cb :
  m us !! k = None →
  Finish k (Prepare k timeout cb us).1 =
    (mkSched (m us) (timers us ++ [mkTimer None k cb]) (now us) (calls us), None).
Proof.
  intros Hk. rewrite (Prepare_absent _ _ _ _ Hk).
  rewrite (Finish_active _ _ (mkUpload timeout (length (timers us))))
    by (cbn; apply lookup_insert_eq).
  cbn. rewrite delete_insert_eq, (delete_id _ _ Hk).
  rewrite <- (Nat.add_0_r (length (timers us))) at 1.
  rewrite alter_app_r. reflexivity.
Qed.

(** X2. In every scheduler reached from a new one, the timer of a session
    was made for the key of that session, and two sessions never have the
    same timer. *)
Theorem timers_not_shared (t0 : Z) evs k1 k2 u1 u2 :
  m (run evs (NewScheduler t0)) !! k1 = Some u1 →
  m (run evs (NewScheduler t0)) !! k2 = Some u2 →
  (∃ tm, timers (run evs (NewScheduler t0)) !! timer u1 = Some tm
         ∧ fn_key tm = k1)
  ∧ (timer u1 = timer u2 → k1 = k2).
Proof.
  intros H1 H2. destruct (kept_reachable t0 evs) as [Hown _]. split.
  - destruct Hown as [Hses _]. exact (Hses _ _ H1).
  - exact (owned_injective _ _ _ _ _ Hown H1 H2).
Qed.

(** X3. In every scheduler reached from a new one, every session has its
    timer armed: there is no session that no expiry will ever end. *)
Theorem sessions_stay_armed (t0 : Z) evs k u :
  m (run evs (NewScheduler t0)) !! k = Some u →
  ∃ w, deadline k (run evs (NewScheduler t0)) = Some w.
Proof.
  intros Hk. destruct (kept_reachable t0 evs) as [_ Harm].
  exact (all_armed_deadline _ _ _ Harm Hk).
Qed.

(** X4. When the clock has advanced, in a scheduler reached from a new one,
    every session that is still in the registry has its deadline strictly
    ahead: the sessions whose deadline was reached have been ended. *)
Theorem no_session_past_its_deadline (t0 d : Z) evs k u :
  m (sleep d (run evs (NewScheduler t0))) !! k = Some u →
  ∃ w, deadline k (sleep d (run evs (NewScheduler t0))) = Some w
       ∧ now (sleep d (run evs (NewScheduler t0))) < w.
Proof.
  intros Hk.
  destruct (kept_reachable t0 (evs ++ [EvSleep d])) as [_ Harm].
  unfold run in Harm. rewrite foldl_app in Harm. cbn in Harm.
  fold (run evs (NewScheduler (K:=K) t0)) in Harm.
  destruct (Harm _ _ Hk) as (tm & w & Ht & Hw).
  exists w. split.
  - exact (deadline_of _ _ _ _ _ Hk Ht Hw).
  - pose proof (sleep_complete d (run evs (NewScheduler t0)) (timer u)) as Hdue.
    unfold due in Hdue. rewrite Ht, Hw in Hdue. apply Z.leb_gt in Hdue. exact Hdue.
Qed.

End Invariants.

Section Callbacks.
Context {K : Type} `{Countable K}.
Implicit Types (us : Sched K) (k : K) (u : upload) (tm : Timer K).

Lemma fire_calls us t :
  calls (fire t us) = calls us
  ∨ ∃ tm, timers us !! t = Some tm
          ∧ is_Some (m us !! fn_key tm)
          ∧ calls (fire t us) = calls us ++ [(fn_cb tm, fn_key tm, None)].
Proof.
  destruct (timers us !! t) as [tm|] eqn:Ht.
  - destruct (m us !! fn_key tm) as [u|] eqn:Hk.
    + right. exists tm. rewrite (fire_present _ _ _ _ Ht Hk). eauto.
    + left. rewrite (fire_removed _ _ _ Ht Hk). reflexivity.
  - left. rewrite (fire_unallocated _ _ Ht). reflexivity.
Qed.

Lemma nil_errors_fire us t :
  Forall (λ c, c.2 = None) (calls us) → Forall (λ c, c.2 = None) (calls (fire t us)).
Proof.
  intros Hall. destruct (fire_calls us t) as [->|(tm & _ & _ & ->)]; [exact Hall|].
  apply Forall_app. split; [exact Hall|]. repeat constructor.
Qed.

Lemma nil_errors_run_due fuel (at_ : Z) us :
  Forall (λ c, c.2 = None) (calls us) →
  Forall (λ c, c.2 = None) (calls (run_due fuel at_ us)).
Proof.
  revert us. induction fuel as [|fuel IH]; intros us Hall; cbn; [exact Hall|].
  destruct (next_due at_ us) as [[t w]|]; [|exact Hall].
  apply IH. apply nil_errors_fire. exact Hall.
Qed.

Lemma nil_errors_step us ev :
  Forall (λ c, c.2 = None) (calls us) →
  Forall (λ c, c.2 = None) (calls (step us ev)).
Proof.
  intros Hall. destruct ev as [k timeout cb|k chunk dst|k|d|t]; cbn.
  - unfold Prepare. destruct (m us !! k); exact Hall.
  - destruct (m us !! k) as [u|] eqn:Hk.
    + rewrite (Append_active _ _ _ _ _ Hk). exact Hall.
    + rewrite (Append_absent _ _ _ _ Hk). exact Hall.
  - unfold Finish. destruct (m us !! k); exact Hall.
  - apply nil_errors_run_due. exact Hall.
  - unfold expire. destruct (due (now us) t us); cbn; [|exact Hall].
    apply nil_errors_fire. exact Hall.
Qed.

(** X5. Whatever is done with a scheduler, every callback that is invoked
    receives a nil error. *)
Theorem callback_error_always_nil (t0 : Z) evs cb k err :
  (cb, k, err) ∈ calls (run evs (NewScheduler t0)) → err = None.
Proof.
  assert (Hrun : ∀ evs0 (us : Sched K),
             Forall (λ c, c.2 = None) (calls us) →
             Forall (λ c, c.2 = None) (calls (run evs0 us))).
  { induction evs0 as [|ev evs0 IH]; intros us Hall; cbn; [exact Hall|].
    apply IH. apply nil_errors_step. exact Hall. }
  intros Hin.
  pose proof (Hrun evs (NewScheduler t0) (Forall_nil_2 _)) as Hall.
  rewrite Forall_forall in Hall. exact (Hall _ Hin).
Qed.

(** X6. [Prepare], [Append] and [Finish] invoke no callback and do not move
    the clock: after any sequence of such calls the callbacks invoked are
    those invoked before. *)
Theorem operations_invoke_no_callback evs us :
  Forall (λ ev, is_call ev = true) evs →
  calls (run evs us) = calls us ∧ now (run evs us) = now us.
Proof.
  revert us. induction evs as [|ev evs IH]; intros us Hall;
    [split; reflexivity|].
  apply Forall_cons in Hall as [Hev Hall].
  change (run (ev :: evs) us) with (run evs (step us ev)).
  destruct (IH (step us ev) Hall) as [-> ->].
  destruct ev as [k timeout cb|k chunk dst|k|d|t]; cbn in Hev |- *;
    try discriminate Hev.
  - unfold Prepare. destruct (m us !! k); split; reflexivity.
  - destruct (m us !! k) as [u|] eqn:Hk.
    + rewrite (Append_active _ _ _ _ _ Hk). split; reflexivity.
    + rewrite (Append_absent _ _ _ _ Hk). split; reflexivity.
  - unfold Finish. destruct (m us !! k); split; reflexivity.
Qed.

End Callbacks.

Section Independence.
Context {K : Type} `{Countable K}.
Implicit Types (us : Sched K) (k : K) (u : upload) (tm : Timer K).

Lemma alter_arm_commute (w1 w2 : option Z) (t1 t2 : nat) (ts : list (Timer K)) :
  t1 ≠ t2 →
  alter (arm w1) t1 (alter (arm w2) t2 ts) = alter (arm w2) t2 (alter (arm w1) t1 ts).
Proof. intros Hne. apply list_alter_alter_ne. exact Hne. Qed.

Lemma alter_arm_None_commute (t1 t2 : nat) (ts : list (Timer K)) :
  alter (arm None) t1 (alter (arm None) t2 ts)
  = alter (arm None) t2 (alter (arm None) t1 ts).
Proof.
  destruct (decide (t1 = t2)) as [->|Hne]; [reflexivity|].
  apply alter_arm_commute. exact Hne.
Qed.

(** X7. Calls for different keys do not interfere: in a scheduler where the
    sessions own their timers, two [Finish], an [Append] and a [Finish], or
    two [Append] for different keys leave the same scheduler in either
    order, and each returns what it returns when called alone. *)
Theorem different_keys_commute us k1 k2 chunk1 dst1 chunk2 dst2 :
  owned us →
  k1 ≠ k2 →
  (Finish k2 (Finish k1 us).1).1 = (Finish k1 (Finish k2 us).1).1
  ∧ (Finish k2 (Finish k1 us).1).2 = (Finish k2 us).2
  ∧ (Finish k2 (Append k1 chunk1 dst1 us).1.1).1
    = (Append k1 chunk1 dst1 (Finish k2 us).1).1.1
  ∧ (Append k1 chunk1 dst1 (Finish k2 us).1).2 = (Append k1 chunk1 dst1 us).2
  ∧ (Append k1 chunk1 dst1 (Finish k2 us).1).1.2 = (Append k1 chunk1 dst1 us).1.2
  ∧ (Finish k2 (Append k1 chunk1 dst1 us).1.1).2 = (Finish k2 us).2
  ∧ (Append k2 chunk2 dst2 (Append k1 chunk1 dst1 us).1.1).1.1
    = (Append k1 chunk1 dst1 (Append k2 chunk2 dst2 us).1.1).1.1
  ∧ (Append k2 chunk2 dst2 (Append k1 chunk1 dst1 us).1.1).2
    = (Append k2 chunk2 dst2 us).2.
Proof.
  intros Hown Hne.
  destruct (m us !! k1) as [u1|] eqn:H1; destruct (m us !! k2) as [u2|] eqn:H2.
  - assert (Ht : timer u1 ≠ timer u2).
    { intros Heq. exact (Hne (owned_injective _ _ _ _ _ Hown H1 H2 Heq)). }
    rewrite (Finish_active us k1 u1 H1), (Finish_active us k2 u2 H2).
    rewrite (Append_active us k1 u1 _ _ H1), (Append_active us k2 u2 _ _ H2).
    cbn [fst snd].
    rewrite (Finish_active _ k2 u2) by (cbn; rewrite lookup_delete_ne; done).
    rewrite (Finish_active _ k1 u1) by (cbn; rewrite lookup_delete_ne; done).
    rewrite (Finish_active _ k2 u2) by (cbn; done).
    rewrite (Append_active _ k1 u1) by (cbn; rewrite lookup_delete_ne; done).
    rewrite (Append_active _ k2 u2) by (cbn; done).
    rewrite (Append_active _ k1 u1) by (cbn; done).
    cbn. rewrite delete_delete, alter_arm_None_commute.
    rewrite (alter_arm_commute None _ (timer u2) (timer u1)) by congruence.
    rewrite (alter_arm_commute (Some (now us + timeout u2)) _ (timer u2) (timer u1))
      by congruence.
    repeat split.
  - rewrite (Finish_active us k1 u1 H1), (Finish_absent us k2 H2).
    rewrite (Append_active us k1 u1 _ _ H1), (Append_absent us k2 _ _ H2).
    cbn [fst snd].
    rewrite (Finish_absent _ k2) by (cbn; rewrite lookup_delete_ne; done).
    rewrite (Finish_active _ k1 u1) by done.
    rewrite (Finish_absent _ k2) by (cbn; done).
    rewrite (Append_active _ k1 u1) by done.
    rewrite (Append_absent _ k2) by (cbn; done).
    repeat split.
  - rewrite (Finish_absent us k1 H1), (Finish_active us k2 u2 H2).
    rewrite (Append_absent us k1 _ _ H1), (Append_active us k2 u2 _ _ H2).
    cbn [fst snd].
    rewrite (Finish_active _ k2 u2) by done.
    rewrite (Finish_absent _ k1) by (cbn; rewrite lookup_delete_ne; done).
    rewrite (Append_absent _ k1) by (cbn; rewrite lookup_delete_ne; done).
    rewrite (Append_active _ k2 u2) by done.
    rewrite (Append_absent _ k1) by (cbn; done).
    repeat split.
  - rewrite (Finish_absent us k1 H1), (Finish_absent us k2 H2).
    rewrite (Append_absent us k1 _ _ H1), (Append_absent us k2 _ _ H2).
    repeat (progress (cbn [fst snd];
                      rewrite ?(Finish_absent us k1 H1), ?(Finish_absent us k2 H2),
                        ?(Append_absent us k1 _ _ H1), ?(Append_absent us k2 _ _ H2))).
    repeat split.
Qed.

(** X8. In a scheduler where the sessions own their timers, [Append] to an
    active key leaves its timer armed, whatever state the timer was in and
    whether the copy succeeds or fails; it is due the stored timeout, counted
    in nanoseconds, after the call. *)
Theorem Append_arms_stored_timeout us k u chunk dst :
  owned us →
  m us !! k = Some u →
  deadline k (Append k chunk dst us).1.1 = Some (now us + timeout u)
  ∧ due (now us + timeout u) (timer u) (Append k chunk dst us).1.1 = true
  ∧ (0 < timeout u → due (now us) (timer u) (Append k chunk dst us).1.1 = false).
Proof.
  intros [Hses _] Hk. destruct (Hses _ _ Hk) as (tm & Ht & _).
  split; [exact (Append_deadline _ _ _ _ _ _ Hk Ht)|].
  rewrite (Append_active _ _ _ _ _ Hk). unfold due. cbn.
  rewrite list_lookup_alter_eq, Ht. cbn. split.
  - apply Z.leb_le. lia.
  - intros Hpos. apply Z.leb_gt. lia.
Qed.

(** X9. [Append] to an active key hands the destination to [io.Copy] and
    returns nil exactly when the copy does; an error of the copy comes back
    wrapped, with the copy's error as its cause.  What the copy wrote before
    it failed stays in the destination. *)
Theorem Append_result us k u chunk dst :
  m us !! k = Some u →
  (Append k chunk dst us).1.2 = (io_Copy dst chunk).1.1
  ∧ ((Append k chunk dst us).2 = None ↔ (io_Copy dst chunk).2 = None)
  ∧ (∀ e, (Append k chunk dst us).2 = Some e →
          ∃ cause, (io_Copy dst chunk).2 = Some cause
                   ∧ e = fmt_Errorf_w AppendPrefix cause
                   ∧ Unwrap e = Some cause
                   ∧ Error e = AppendPrefix +:+ Error cause)
  ∧ (w_room dst = None → f_err chunk = None →
     (Append k chunk dst us).2 = None
     ∧ w_buf (Append k chunk dst us).1.2 = w_buf dst ++ f_data chunk)
  ∧ (∀ r, w_room dst = Some r → (r < length (f_data chunk))%nat →
          (Append k chunk dst us).2 = Some (fmt_Errorf_w AppendPrefix (w_err dst))
          ∧ w_buf (Append k chunk dst us).1.2 = w_buf dst ++ take r (f_data chunk)).
Proof.
  intros Hk. rewrite (Append_active _ _ _ _ _ Hk). cbn [fst snd].
  split; [reflexivity|]. split; [|split; [|split]].
  - destruct (io_Copy dst chunk).2; cbn; split; congruence.
  - intros e. destruct (io_Copy dst chunk).2 as [cause|]; cbn; [|discriminate].
    intros [= <-]. exists cause. repeat split.
  - intros Hroom Heof. unfold io_Copy. rewrite Hroom, Heof. split; reflexivity.
  - intros r Hroom Hlt. unfold io_Copy. rewrite Hroom.
    destruct (Nat.leb_spec (length (f_data chunk)) r) as [Hle|_]; [lia|].
    split; reflexivity.
Qed.

End Independence.

Section LeftAlone.
Context {K : Type} `{Countable K}.
Implicit Types (us : Sched K) (k : K) (u : upload) (tm : Timer K).

Lemma next_due_armed (at_ : Z) us t (w : Z) :
  next_due at_ us = Some (t, w) →
  ∃ tm, timers us !! t = Some tm ∧ when tm = Some w ∧ w <= at_.
Proof.
  intros Hn. apply earliest_Some in Hn as [Hn|(j & tm & -> & Hj & Hw & Hle)];
    [discriminate Hn|].
  exists tm. split; [exact Hj|]. split; [exact Hw|exact Hle].
Qed.

Lemma calls_for_snoc_other k (cs : list (Callback * K * option error)) cb k' err :
  k' ≠ k → calls_for k (cs ++ [(cb, k', err)]) = calls_for k cs.
Proof.
  intros Hne. unfold calls_for. rewrite filter_app, filter_cons_False by exact Hne.
  rewrite filter_nil. apply app_nil_r.
Qed.

Lemma calls_for_snoc_own k (cs : list (Callback * K * option error)) cb err :
  calls_for k (cs ++ [(cb, k, err)]) = calls_for k cs ++ [(cb, k, err)].
Proof.
  unfold calls_for. rewrite filter_app, filter_cons_True by reflexivity.
  rewrite filter_nil. reflexivity.
Qed.

(** The firing of an armed timer made for another key. *)
Lemma fire_other_key us t' tm' (w' : Z) k :
  owned us → timers us !! t' = Some tm' → when tm' = Some w' → fn_key tm' ≠ k →
  m (fire t' us) !! k = m us !! k
  ∧ calls_for k (calls (fire t' us)) = calls_for k (calls us)
  ∧ (∀ u, m us !! k = Some u →
          timers (fire t' us) !! timer u = timers us !! timer u).
Proof.
  intros Hown Ht' Hw' Hne.
  destruct (proj2 Hown _ _ _ Ht' Hw') as (u' & Hk' & Htu').
  rewrite (fire_present _ _ _ _ Ht' Hk'). cbn.
  split; [apply lookup_delete_ne; exact Hne|].
  split; [apply calls_for_snoc_other; exact Hne|].
  intros u Hk. rewrite Htu', alter_arm_twice.
  apply list_lookup_alter_ne. intros Heq. apply Hne.
  rewrite <- Htu' in Heq. exact (owned_injective _ _ _ _ _ Hown Hk' Hk Heq).
Qed.

(** The firing of the timer of an active session. *)
Lemma fire_own_key us k u tm :
  owned us → m us !! k = Some u → timers us !! timer u = Some tm →
  m (fire (timer u) us) !! k = None
  ∧ calls_for k (calls (fire (timer u) us))
    = calls_for k (calls us) ++ [(fn_cb tm, k, None)].
Proof.
  intros Hown Hk Ht.
  destruct (proj1 Hown _ _ Hk) as (tm0 & Ht0 & Hkey).
  rewrite Ht in Ht0. injection Ht0 as <-.
  rewrite <- Hkey in Hk.
  rewrite (fire_present _ _ _ _ Ht Hk). cbn. rewrite Hkey.
  split; [apply lookup_delete_eq|apply calls_for_snoc_own].
Qed.

Lemma run_due_tracks fuel (at_ : Z) us k u tm (w : Z)
    (base : list (Callback * K * option error)) :
  owned us → when tm = Some w →
  (m us !! k = Some u ∧ timers us !! timer u = Some tm
   ∧ calls_for k (calls us) = base)
  ∨ (m us !! k = None ∧ calls_for k (calls us) = base ++ [(fn_cb tm, k, None)]) →
  owned (run_due fuel at_ us)
  ∧ ((m (run_due fuel at_ us) !! k = Some u
      ∧ timers (run_due fuel at_ us) !! timer u = Some tm
      ∧ calls_for k (calls (run_due fuel at_ us)) = base)
     ∨ (m (run_due fuel at_ us) !! k = None
        ∧ calls_for k (calls (run_due fuel at_ us))
          = base ++ [(fn_cb tm, k, None)]))
  ∧ (at_ < w → m us !! k = Some u → m (run_due fuel at_ us) !! k = Some u).
Proof.
  intros Hown Hw. revert us Hown.
  induction fuel as [|fuel IH]; intros us Hown Hst; cbn [run_due].
  - split; [exact Hown|]. split; [exact Hst|]. intros _ Hk. exact Hk.
  - destruct (next_due at_ us) as [[t' w']|] eqn:Hn.
    2:{ split; [exact Hown|]. split; [exact Hst|]. intros _ Hk. exact Hk. }
    destruct (next_due_armed _ _ _ _ Hn) as (tm' & Ht' & Hw' & Hle).
    set (us0 := set_now (Z.max (now us) w') us).
    assert (Hown0 : owned us0) by exact Hown.
    assert (Hown1 : owned (fire t' us0)) by (apply owned_fire; exact Hown0).
    destruct Hst as [(Hk & Ht & Hc)|(Hk & Hc)].
    + destruct (decide (t' = timer u)) as [->|Hneq].
      * assert (Htm : tm' = tm) by congruence. subst tm'.
        destruct (fire_own_key us0 k u tm Hown0 Hk Ht) as [Hgone Hcalls].
        destruct (IH (fire (timer u) us0) Hown1) as (Ho & Hd & _).
        { right. split; [exact Hgone|]. rewrite Hcalls.
          change (calls us0) with (calls us). rewrite Hc. reflexivity. }
        split; [exact Ho|]. split; [exact Hd|].
        intros Hlt _. rewrite Hw in Hw'. injection Hw' as <-. lia.
      * assert (Hkey : fn_key tm' ≠ k).
        { intros Heq. destruct (proj2 Hown _ _ _ Ht' Hw') as (u0 & Hk0 & Htu0).
          rewrite Heq, Hk in Hk0. injection Hk0 as <-. exact (Hneq (eq_sym Htu0)). }
        destruct (fire_other_key us0 t' tm' w' k Hown0 Ht' Hw' Hkey)
          as (Hm & Hcalls & Htim).
        destruct (IH (fire t' us0) Hown1) as (Ho & Hd & Hearly).
        { left. split; [rewrite Hm; exact Hk|].
          split; [rewrite (Htim u Hk); exact Ht|]. rewrite Hcalls. exact Hc. }
        split; [exact Ho|]. split; [exact Hd|].
        intros Hlt _. apply Hearly; [exact Hlt|]. rewrite Hm. exact Hk.
    + assert (Hkey : fn_key tm' ≠ k).
      { intros Heq. destruct (proj2 Hown _ _ _ Ht' Hw') as (u0 & Hk0 & _).
        rewrite Heq, Hk in Hk0. discriminate Hk0. }
      destruct (fire_other_key us0 t' tm' w' k Hown0 Ht' Hw' Hkey)
        as (Hm & Hcalls & _).
      destruct (IH (fire t' us0) Hown1) as (Ho & Hd & _).
      { right. split; [rewrite Hm; exact Hk|]. rewrite Hcalls. exact Hc. }
      split; [exact Ho|]. split; [exact Hd|].
      intros _ Hk'. rewrite Hk in Hk'. discriminate Hk'.
Qed.

(** X10. An upload that is prepared and then left alone is ended by its
    timer, once: while the clock has advanced by less than
    [time.Second * timeout] the session is in the registry and no callback
    has been invoked for its key; once the clock has advanced that far the
    session is gone and the callback of [Prepare] has been invoked for the
    key exactly once, with a nil error.  Timers of other uploads that fire
    in between do not change this. *)
Theorem upload_left_alone_expires us k timeout cb (d : Z) :
  owned us →
  m us !! k = None →
  (d < Duration_mul time_Second timeout →
   m (sleep d (Prepare k timeout cb us).1) !! k
     = Some (mkUpload timeout (length (timers us)))
   ∧ calls_for k (calls (sleep d (Prepare k timeout cb us).1))
     = calls_for k (calls us))
  ∧ (Duration_mul time_Second timeout <= d →
     m (sleep d (Prepare k timeout cb us).1) !! k = None
     ∧ calls_for k (calls (sleep d (Prepare k timeout cb us).1))
       = calls_for k (calls us) ++ [(cb, k, None)]).
Proof.
  intros Hown Hk.
  set (D := Duration_mul time_Second timeout).
  set (us1 := (Prepare k timeout cb us).1).
  set (u := mkUpload timeout (length (timers us))).
  set (tm := mkTimer (Some (now us + D)) k cb).
  assert (Hown1 : owned us1) by (apply owned_Prepare; exact Hown).
  assert (Hus1 : us1 = mkSched (<[k := u]> (m us)) (timers us ++ [tm])
                         (now us) (calls us)).
  { unfold us1. rewrite (Prepare_absent _ _ _ _ Hk). reflexivity. }
  assert (Hk1 : m us1 !! k = Some u).
  { rewrite Hus1. cbn. apply lookup_insert_eq. }
  assert (Ht1 : timers us1 !! timer u = Some tm).
  { rewrite Hus1. cbn. rewrite lookup_app_r by lia.
    rewrite Nat.sub_diag. reflexivity. }
  assert (Hnow : now us1 = now us) by (rewrite Hus1; reflexivity).
  assert (Hcalls : calls us1 = calls us) by (rewrite Hus1; reflexivity).
  destruct (run_due_tracks (length (timers us1)) (now us1 + d) us1 k u tm
              (now us + D) (calls_for k (calls us)) Hown1 eq_refl)
    as (Hown2 & Hst & Hearly).
  { left. split; [exact Hk1|]. split; [exact Ht1|]. rewrite Hcalls. reflexivity. }
  unfold sleep. cbn [m calls set_now].
  set (us2 := run_due (length (timers us1)) (now us1 + d) us1) in *.
  split.
  - intros Hlt. assert (Hk2 : m us2 !! k = Some u).
    { apply Hearly; [lia|exact Hk1]. }
    split; [exact Hk2|].
    destruct Hst as [(_ & _ & Hc)|(Hk2' & _)]; [exact Hc|congruence].
  - intros Hle. destruct Hst as [(Hk2 & Ht2 & _)|(Hk2 & Hc)].
    + exfalso.
      pose proof (run_due_complete (length (timers us1)) (now us1 + d) us1
                    (armed_le_length _)) as Hnone.
      pose proof (next_due_None _ _ (timer u) Hnone) as Hdue.
      fold us2 in Hdue. unfold due in Hdue. rewrite Ht2 in Hdue. cbn in Hdue.
      apply Z.leb_gt in Hdue. lia.
    + split; [exact Hk2|exact Hc].
Qed.

End LeftAlone.

(** * godl: what the headers are *)

Lemma string_app_inv_head (p a b : string) : p +:+ a = p +:+ b → a = b.
Proof.
  induction p as [|c p IH]; cbn; intros Heq; [exact Heq|].
  injection Heq as Heq. exact (IH Heq).
Qed.

Lemma QueryEscape_cons (c : ascii) (s : string) :
  QueryEscape (String c s) = escape_byte c +:+ QueryEscape s.
Proof.
  cbn [QueryEscape]. unfold escape_byte.
  destruct (Ascii.eqb c " "); [reflexivity|].
  destruct (shouldEscape c); reflexivity.
Qed.

Lemma string_forallb_app (f : ascii → bool) (a b : string) :
  string_forallb f (a +:+ b) = string_forallb f a && string_forallb f b.
Proof.
  induction a as [|c a IH]; [reflexivity|].
  change (String c a +:+ b) with (String c (a +:+ b)).
  cbn [string_forallb]. rewrite IH. apply andb_assoc.
Qed.

Lemma escape_byte_escaped (c : ascii) :
  string_forallb escaped_byte (escape_byte c) = true.
Proof. destruct c as [[] [] [] [] [] [] [] []]; vm_compute; reflexivity. Qed.

Lemma unescaped_byte_literal (c : ascii) :
  Ascii.eqb c " " = false → shouldEscape c = false →
  Ascii.eqb c "%" = false ∧ Ascii.eqb c "+" = false.
Proof.
  destruct c as [[] [] [] [] [] [] [] []]; vm_compute; intros H1 H2;
    try discriminate H1; try discriminate H2; split; reflexivity.
Qed.

Lemma unhex_upperhex (c : ascii) :
  unhex (upperhex (nat_of_ascii c / 16)) = Some (nat_of_ascii c / 16)%nat
  ∧ unhex (upperhex (nat_of_ascii c mod 16)) = Some (nat_of_ascii c mod 16)%nat
  ∧ ascii_of_nat (16 * (nat_of_ascii c / 16) + nat_of_ascii c mod 16) = c.
Proof.
  destruct c as [[] [] [] [] [] [] [] []]; vm_compute; repeat split.
Qed.

Lemma unescape_query_percent (a b : ascii) (rest : string) :
  unescape_query (String "%" (String a (String b rest))) =
    hi ← unhex a; lo ← unhex b; r ← unescape_query rest;
    Some (String (ascii_of_nat (16 * hi + lo)) r).
Proof. reflexivity. Qed.

Lemma unescape_query_plus (rest : string) :
  unescape_query (String "+" rest) = String " " <$> unescape_query rest.
Proof. reflexivity. Qed.

Lemma unescape_query_literal (c : ascii) (rest : string) :
  Ascii.eqb c "%" = false → Ascii.eqb c "+" = false →
  unescape_query (String c rest) = String c <$> unescape_query rest.
Proof. intros H1 H2. cbn [unescape_query]. rewrite H1, H2. reflexivity. Qed.

Lemma unescape_escape_byte (c : ascii) (rest : string) :
  unescape_query (escape_byte c +:+ rest) = String c <$> unescape_query rest.
Proof.
  unfold escape_byte.
  destruct (Ascii.eqb_spec c " ") as [->|Hsp].
  - exact (unescape_query_plus rest).
  - destruct (shouldEscape c) eqn:Hesc.
    + change (unescape_query
                (String "%"
                   (String (upperhex (nat_of_ascii c / 16))
                      (String (upperhex (nat_of_ascii c mod 16)) rest)))
              = String c <$> unescape_query rest).
      rewrite unescape_query_percent.
      destruct (unhex_upperhex c) as (-> & -> & Hc). cbn.
      destruct (unescape_query rest); cbn; [|reflexivity].
      cbn in Hc. rewrite Hc. reflexivity.
    + assert (Hsp' : Ascii.eqb c " " = false) by (apply Ascii.eqb_neq; exact Hsp).
      destruct (unescaped_byte_literal c Hsp' Hesc) as [H1 H2].
      exact (unescape_query_literal c rest H1 H2).
Qed.

Lemma unescape_QueryEscape (s : string) : unescape_query (QueryEscape s) = Some s.
Proof.
  induction s as [|c s IH]; [reflexivity|].
  rewrite QueryEscape_cons, unescape_escape_byte, IH. reflexivity.
Qed.

Lemma QueryEscape_inj (a b : string) : QueryEscape a = QueryEscape b → a = b.
Proof.
  intros Heq. apply (f_equal unescape_query) in Heq.
  rewrite !unescape_QueryEscape in Heq. congruence.
Qed.

Lemma QueryEscape_escaped (s : string) :
  string_forallb escaped_byte (QueryEscape s) = true.
Proof.
  induction s as [|c s IH]; [reflexivity|].
  rewrite QueryEscape_cons, string_forallb_app, escape_byte_escaped, IH.
  reflexivity.
Qed.

Lemma escaped_byte_harmless (c : ascii) :
  escaped_byte c = true →
  (32 < nat_of_ascii c < 127)%nat
  ∧ nat_of_ascii c ≠ 34%nat ∧ nat_of_ascii c ≠ 59%nat
  ∧ nat_of_ascii c ≠ 92%nat ∧ nat_of_ascii c ≠ 39%nat.
Proof.
  destruct c as [[] [] [] [] [] [] [] []]; vm_compute; intros Hc;
    try discriminate Hc; repeat split; try lia; discriminate.
Qed.

Lemma Header_Get_Set (key value : string) (w : Header) :
  Header_Get key (Header_Set key value w) = value.
Proof. unfold Header_Get, Header_Set. rewrite lookup_insert_eq. reflexivity. Qed.

Lemma SetContentType_value (w : Header) (path : string) (infer : string → string) :
  SetContentType w path infer =
    <[ContentType :=
        [if String.eqb (infer path) EmptyString then OctetStream else infer path]]> w.
Proof. reflexivity. Qed.

Lemma range_inlineTypes_mem (w : Header) (its : list string) (b : bool) :
  range_inlineTypes w its b = bool_decide (Header_Get ContentType w ∈ its) || b.
Proof.
  induction its as [|it its IH]; cbn.
  - rewrite bool_decide_eq_false_2; [reflexivity|]. apply not_elem_of_nil.
  - destruct (String.eqb_spec it (Header_Get ContentType w)) as [->|Hne].
    + rewrite bool_decide_eq_true_2; [reflexivity|]. apply elem_of_cons. auto.
    + rewrite IH. f_equal. apply bool_decide_ext.
      rewrite elem_of_cons. split; [auto|]. intros [Heq|Hin]; [congruence|exact Hin].
Qed.

Lemma ContentType_neq_ContentDisposition : ContentType ≠ ContentDisposition.
Proof. discriminate. Qed.

Section GodlFacts.
Context `{Libraries}.

Lemma ServeDownload_unfold (w : Header) (r : Request) (path name : string)
    (its : list string) (infer : string → string) :
  ServeDownload w r path name its infer =
    http_ServeFile
      (if bool_decide (its = [])
          || bool_decide (Header_Get ContentType (SetContentType w path infer) ∈ its)
       then SetContentType w path infer
       else SetAttachment (SetContentType w path infer) name)
      r path.
Proof.
  unfold ServeDownload. rewrite range_inlineTypes_mem.
  assert (Hlen : (length its =? 0)%nat = bool_decide (its = [])).
  { destruct its; reflexivity. }
  rewrite Hlen, orb_comm.
  destruct (bool_decide (its = [])
            || bool_decide (Header_Get ContentType (SetContentType w path infer) ∈ its));
    reflexivity.
Qed.

(** X11. [SetContentType] leaves exactly one Content-Type value, which is
    never empty: the inferred type, or "application/octet-stream" when the
    inference gives the empty string; the other headers are not touched. *)
Theorem SetContentType_never_empty (w : Header) (path : string)
    (infer : string → string) :
  SetContentType w path infer !! ContentType
    = Some [Header_Get ContentType (SetContentType w path infer)]
  ∧ Header_Get ContentType (SetContentType w path infer) ≠ EmptyString
  ∧ Header_Get ContentType (SetContentType w path infer)
    = (if String.eqb (infer path) EmptyString then OctetStream else infer path)
  ∧ (∀ key, key ≠ ContentType → SetContentType w path infer !! key = w !! key).
Proof.
  rewrite SetContentType_value. unfold Header_Get.
  rewrite lookup_insert_eq.
  split; [reflexivity|]. split; [|split; [reflexivity|]].
  - destruct (String.eqb_spec (infer path) EmptyString) as [Heq|Hne];
      [discriminate|exact Hne].
  - intros key Hne. apply lookup_insert_ne. congruence.
Qed.

(** X12. [Infer] gives the type found by magic whenever that is not empty,
    and the type of the extension otherwise, in particular when the detection
    fails; it is empty only when both are, and then [SetContentType] falls
    back to "application/octet-stream". *)
Theorem Infer_prefers_magic (w : Header) (path : string) :
  (InferByMagic path ≠ EmptyString → Infer path = InferByMagic path)
  ∧ (InferByMagic path = EmptyString → Infer path = InferByExtension path)
  ∧ (mimetype_DetectFile path = None →
     Infer path = mime_TypeByExtension (filepath_Ext path))
  ∧ (Infer path = EmptyString
     ↔ InferByMagic path = EmptyString ∧ InferByExtension path = EmptyString)
  ∧ (InferByMagic path = EmptyString → InferByExtension path = EmptyString →
     Header_Get ContentType (SetContentType w path Infer) = OctetStream).
Proof.
  unfold Infer.
  destruct (String.eqb_spec (InferByMagic path) EmptyString) as [Heq|Hne].
  - split; [congruence|]. split; [reflexivity|]. split; [reflexivity|].
    split; [split; [intros Hx; split; [exact Heq|exact Hx]|intros [_ Hx]; exact Hx]|].
    intros _ Hext. unfold SetContentType, Infer.
    rewrite Header_Get_Set, Heq. cbn. rewrite Hext. reflexivity.
  - split; [reflexivity|]. split; [congruence|]. split.
    { intros Hnone. unfold InferByMagic in Hne. rewrite Hnone in Hne.
      congruence. }
    split; [split; [congruence|intros [Hx _]; congruence]|congruence].
Qed.

(** X13. [ServeDownload] hands [http.ServeFile] the same request and path and
    these headers: Content-Type as [SetContentType] sets it, and
    Content-Disposition set to the attachment exactly when the list of inline
    types is not empty and does not contain that Content-Type, compared as a
    whole string; otherwise Content-Disposition is left as it was. *)
Theorem ServeDownload_headers (w : Header) (r : Request) (path name : string)
    (its : list string) (infer : string → string) :
  ∃ w',
    ServeDownload w r path name its infer = http_ServeFile w' r path
    ∧ w' !! ContentType = SetContentType w path infer !! ContentType
    ∧ w' !! ContentDisposition
      = (if bool_decide (its = [])
            || bool_decide (Header_Get ContentType (SetContentType w path infer) ∈ its)
         then w !! ContentDisposition
         else Some [AttachmentPrefix +:+ QueryEscape name])
    ∧ (∀ key, key ≠ ContentType → key ≠ ContentDisposition → w' !! key = w !! key).
Proof.
  rewrite ServeDownload_unfold.
  destruct (bool_decide (its = [])
            || bool_decide (Header_Get ContentType (SetContentType w path infer) ∈ its)).
  - exists (SetContentType w path infer). split; [reflexivity|].
    split; [reflexivity|]. rewrite SetContentType_value. split.
    + apply lookup_insert_ne. exact ContentType_neq_ContentDisposition.
    + intros key Hct _. apply lookup_insert_ne. congruence.
  - exists (SetAttachment (SetContentType w path infer) name).
    split; [reflexivity|]. unfold SetAttachment, Header_Set.
    split; [|split].
    + apply lookup_insert_ne. intros Heq.
      exact (ContentType_neq_ContentDisposition (eq_sym Heq)).
    + apply lookup_insert_eq.
    + intros key Hct Hcd. rewrite lookup_insert_ne by congruence.
      rewrite SetContentType_value. apply lookup_insert_ne. congruence.
Qed.

(** X14. With a list of inline types that is not empty and does not contain
    the Content-Type, [ServeDownload] does what [ServeAttachment] does; with
    an empty list, or a list that contains it, it serves with the headers of
    [SetContentType] alone. *)
Theorem ServeDownload_or_ServeAttachment (w : Header) (r : Request)
    (path name : string) (its : list string) (infer : string → string) :
  (its ≠ [] →
   Header_Get ContentType (SetContentType w path infer) ∉ its →
   ServeDownload w r path name its infer = ServeAttachment w r path name infer)
  ∧ (its = [] ∨ Header_Get ContentType (SetContentType w path infer) ∈ its →
     ServeDownload w r path name its infer
     = http_ServeFile (SetContentType w path infer) r path).
Proof.
  rewrite ServeDownload_unfold. split.
  - intros Hne Hnin. rewrite !bool_decide_eq_false_2 by assumption. reflexivity.
  - intros [Hnil|Hin].
    + rewrite (bool_decide_eq_true_2 _ Hnil). reflexivity.
    + rewrite (bool_decide_eq_true_2 _ Hin), orb_true_r. reflexivity.
Qed.

(** X15. [ServeAttachment] hands [http.ServeFile] the same request and path,
    one Content-Type value that is not empty, and the Content-Disposition
    "attachment; filename*=UTF-8''" followed by the escaped name, whatever
    these two headers held before; the other headers are not touched. *)
Theorem ServeAttachment_headers (w : Header) (r : Request) (path name : string)
    (infer : string → string) :
  ∃ w',
    ServeAttachment w r path name infer = http_ServeFile w' r path
    ∧ w' !! ContentType
      = Some [if String.eqb (infer path) EmptyString then OctetStream
              else infer path]
    ∧ Header_Get ContentType w' ≠ EmptyString
    ∧ w' !! ContentDisposition = Some [AttachmentPrefix +:+ QueryEscape name]
    ∧ (∀ key, key ≠ ContentType → key ≠ ContentDisposition → w' !! key = w !! key).
Proof.
  exists (SetAttachment (SetContentType w path infer) name).
  split; [reflexivity|].
  assert (Hct : SetAttachment (SetContentType w path infer) name !! ContentType
                = Some [if String.eqb (infer path) EmptyString then OctetStream
                        else infer path]).
  { unfold SetAttachment, Header_Set. rewrite lookup_insert_ne by discriminate.
    rewrite SetContentType_value. apply lookup_insert_eq. }
  split; [exact Hct|]. split; [|split].
  - unfold Header_Get. rewrite Hct.
    destruct (String.eqb_spec (infer path) EmptyString) as [Heq|Hne];
      [discriminate|exact Hne].
  - apply lookup_insert_eq.
  - intros key Hk1 Hk2. unfold SetAttachment, Header_Set.
    rewrite lookup_insert_ne by congruence.
    rewrite SetContentType_value. apply lookup_insert_ne. congruence.
Qed.

End GodlFacts.

(** X16. The Content-Disposition that [SetAttachment] sets is
    "attachment; filename*=UTF-8''" followed only by letters, digits and the
    bytes [-_.~+%]: whatever the name, the value holds no control byte, no
    space, no quote, no semicolon, no backslash and no byte outside ASCII
    after the prefix. *)
Theorem SetAttachment_value_harmless (w : Header) (name : string) :
  SetAttachment w name !! ContentDisposition
    = Some [AttachmentPrefix +:+ QueryEscape name]
  ∧ string_forallb escaped_byte (QueryEscape name) = true
  ∧ (∀ c, escaped_byte c = true →
          (32 < nat_of_ascii c < 127)%nat
          ∧ nat_of_ascii c ≠ 34%nat ∧ nat_of_ascii c ≠ 59%nat
          ∧ nat_of_ascii c ≠ 92%nat ∧ nat_of_ascii c ≠ 39%nat).
Proof.
  split; [apply lookup_insert_eq|].
  split; [apply QueryEscape_escaped|exact escaped_byte_harmless].
Qed.

(** X17. Different names give different Content-Disposition headers: the
    escaping of [SetAttachment] loses nothing of the name. *)
Theorem SetAttachment_injective (w1 w2 : Header) (name1 name2 : string) :
  SetAttachment w1 name1 !! ContentDisposition
    = SetAttachment w2 name2 !! ContentDisposition →
  name1 = name2.
Proof.
  unfold SetAttachment, Header_Set. rewrite !lookup_insert_eq.
  intros [= Heq]. apply string_app_inv_head in Heq.
  exact (QueryEscape_inj _ _ Heq).
Qed.

(** X18. A name made of letters, digits and [-_.~] only is written into the
    Content-Disposition as it is. *)
Theorem SetAttachment_plain_name (w : Header) (name : string) :
  string_forallb (λ c, negb (shouldEscape c)) name = true →
  QueryEscape name = name
  ∧ SetAttachment w name !! ContentDisposition = Some [AttachmentPrefix +:+ name].
Proof.
  intros Hplain.
  assert (Hid : QueryEscape name = name).
  { induction name as [|c name IH]; [reflexivity|].
    cbn in Hplain. apply andb_true_iff in Hplain as [Hc Hrest].
    cbn [QueryEscape].
    assert (Hsp : Ascii.eqb c " " = false).
    { destruct (Ascii.eqb_spec c " ") as [->|]; [discriminate Hc|reflexivity]. }
    rewrite Hsp. apply negb_true_iff in Hc. rewrite Hc, (IH Hrest). reflexivity. }
  split; [exact Hid|].
  unfold SetAttachment, Header_Set. rewrite lookup_insert_eq, Hid. reflexivity.
Qed.

(** X19. Setting a header twice keeps the last value, and the two setters do
    not disturb each other: they can be applied in either order. *)
Theorem setters_compose (w : Header) (path name name' : string)
    (infer infer' : string → string) :
  SetAttachment (SetAttachment w name) name' = SetAttachment w name'
  ∧ SetContentType (SetContentType w path infer) path infer'
    = SetContentType w path infer'
  ∧ SetAttachment (SetContentType w path infer) name
    = SetContentType (SetAttachment w name) path infer.
Proof.
  unfold SetAttachment, SetContentType, Header_Set.
  split; [apply insert_insert_eq|]. split; [apply insert_insert_eq|].
  apply insert_insert_ne. discriminate.
Qed.

(** ** The further theorems at work *)

Lemma Prepare_Finish_round_trip_witness :
  m sched0 !! 1 = None
  ∧ Finish 1 (Prepare 1 2 0%nat sched0).1
    = (mkSched ∅ [mkTimer None 1 0%nat] 0 [], None).
Proof.
  split; [reflexivity|].
  exact (Prepare_Finish_round_trip sched0 1 2 0%nat eq_refl).
Defined.

Lemma timers_not_shared_witness :
  m (run [EvPrepare 1 2 0%nat; EvPrepare 5 3 1%nat] (NewScheduler 0)) !! 1
    = Some (mkUpload 2 0)
  ∧ m (run [EvPrepare 1 2 0%nat; EvPrepare 5 3 1%nat] (NewScheduler 0)) !! 5
    = Some (mkUpload 3 1)
  ∧ (timer (mkUpload 2 0) = timer (mkUpload 3 1) → (1 : Z) = 5).
Proof.
  split; [reflexivity|]. split; [reflexivity|].
  exact (proj2 (timers_not_shared 0 [EvPrepare 1 2 0%nat; EvPrepare 5 3 1%nat]
                  1 5 (mkUpload 2 0) (mkUpload 3 1) eq_refl eq_refl)).
Defined.

Lemma sessions_stay_armed_witness :
  m (run [EvPrepare 1 2 0%nat; EvSleep 7; EvAppend 1 chunk3 full_sink]
       (NewScheduler 0)) !! 1 = Some (mkUpload 2 0)
  ∧ ∃ w, deadline 1
           (run [EvPrepare 1 2 0%nat; EvSleep 7; EvAppend 1 chunk3 full_sink]
              (NewScheduler 0)) = Some w.
Proof.
  split; [reflexivity|].
  exact (sessions_stay_armed 0
           [EvPrepare 1 2 0%nat; EvSleep 7; EvAppend 1 chunk3 full_sink]
           1 (mkUpload 2 0) eq_refl).
Defined.

Lemma no_session_past_its_deadline_witness :
  m (sleep 1000000000
       (run [EvPrepare 1 2 0%nat; EvPrepare 5 1 1%nat] (NewScheduler 0))) !! 1
    = Some (mkUpload 2 0)
  ∧ ∃ w, deadline 1
           (sleep 1000000000
              (run [EvPrepare 1 2 0%nat; EvPrepare 5 1 1%nat] (NewScheduler 0)))
         = Some w
         ∧ now (sleep 1000000000
                  (run [EvPrepare 1 2 0%nat; EvPrepare 5 1 1%nat] (NewScheduler 0)))
           < w.
Proof.
  split; [reflexivity|].
  exact (no_session_past_its_deadline 0 1000000000
           [EvPrepare 1 2 0%nat; EvPrepare 5 1 1%nat] 1 (mkUpload 2 0) eq_refl).
Defined.

Lemma callback_error_always_nil_witness :
  calls (run [EvPrepare 1 2 0%nat; EvSleep 2000000000] (NewScheduler 0))
    = [(0%nat, 1, None)]
  ∧ (None : option error) = None.
Proof.
  split; [reflexivity|].
  apply (callback_error_always_nil 0
           [EvPrepare 1 2 0%nat; EvSleep 2000000000] 0%nat 1 None).
  change (calls (run [EvPrepare 1 2 0%nat; EvSleep 2000000000] (NewScheduler 0)))
    with [(0%nat, (1 : Z), (None : option error))].
  constructor.
Defined.

Lemma operations_invoke_no_callback_witness :
  calls (run [EvPrepare 5 3 1%nat; EvAppend 1 chunk3 sink; EvFinish 1] sched1) = [].
Proof.
  apply (operations_invoke_no_callback
           [EvPrepare 5 3 1%nat; EvAppend 1 chunk3 sink; EvFinish 1] sched1).
  repeat constructor.
Defined.

Lemma different_keys_commute_witness :
  (1 : Z) ≠ 5
  ∧ (Finish 5 (Append 1 chunk3 sink (step sched1 (EvPrepare 5 3 1%nat))).1.1).1
    = (Append 1 chunk3 sink (Finish 5 (step sched1 (EvPrepare 5 3 1%nat))).1).1.1.
Proof.
  split; [discriminate|].
  destruct (different_keys_commute (step sched1 (EvPrepare 5 3 1%nat)) 1 5
              chunk3 sink chunk3 sink
              (owned_run [EvPrepare 1 2 0%nat; EvPrepare 5 3 1%nat] sched0
                 (owned_NewScheduler 0))
              ltac:(discriminate))
    as (_ & _ & Hc & _).
  exact Hc.
Defined.

Lemma Append_arms_stored_timeout_witness :
  m sched1 !! 1 = Some (mkUpload 2 0)
  ∧ deadline 1 (Append 1 chunk3 full_sink sched1).1.1 = Some 2.
Proof.
  split; [reflexivity|].
  exact (proj1 (Append_arms_stored_timeout sched1 1 (mkUpload 2 0) chunk3 full_sink
                  (owned_run [EvPrepare 1 2 0%nat] sched0 (owned_NewScheduler 0))
                  eq_refl)).
Defined.

Lemma Append_result_witness :
  m sched1 !! 1 = Some (mkUpload 2 0)
  ∧ w_room full_sink = Some 2%nat
  ∧ (Append 1 chunk3 full_sink sched1).2
    = Some (fmt_Errorf_w AppendPrefix (errors_New "no space left on device"))
  ∧ w_buf (Append 1 chunk3 full_sink sched1).1.2 = [Byte.x61; Byte.x62].
Proof.
  split; [reflexivity|]. split; [reflexivity|].
  destruct (Append_result sched1 1 (mkUpload 2 0) chunk3 full_sink eq_refl)
    as (_ & _ & _ & _ & Hfull).
  exact (Hfull 2%nat eq_refl ltac:(cbn; lia)).
Defined.

Lemma upload_left_alone_expires_witness :
  m sched0 !! 1 = None
  ∧ Duration_mul time_Second 2 <= 2000000000
  ∧ m (sleep 2000000000 (Prepare 1 2 0%nat sched0).1) !! 1 = None
  ∧ calls_for 1 (calls (sleep 2000000000 (Prepare 1 2 0%nat sched0).1))
    = [(0%nat, 1, None)]
  ∧ m (sleep 1999999999 (Prepare 1 2 0%nat sched0).1) !! 1 = Some (mkUpload 2 0).
Proof.
  split; [reflexivity|]. split; [vm_compute; discriminate|].
  destruct (upload_left_alone_expires sched0 1 2 0%nat 2000000000
              (owned_NewScheduler 0) eq_refl) as [_ Hlate].
  destruct (upload_left_alone_expires sched0 1 2 0%nat 1999999999
              (owned_NewScheduler 0) eq_refl) as [Hearly _].
  destruct (Hlate ltac:(vm_compute; discriminate)) as [Hgone Hcalls].
  split; [exact Hgone|]. split; [exact Hcalls|].
  exact (proj1 (Hearly ltac:(vm_compute; reflexivity))).
Defined.

Lemma Infer_prefers_magic_witness :
  Infer (H:=demo_libraries) "/srv/logo" = "image/png"
  ∧ Infer (H:=demo_libraries) "/srv/notes.txt" = "text/plain; charset=utf-8"
  ∧ Header_Get ContentType
      (SetContentType ∅ "/srv/unknown" (Infer (H:=demo_libraries))) = OctetStream.
Proof.
  destruct (Infer_prefers_magic (H:=demo_libraries) ∅ "/srv/logo")
    as (Hmagic & _).
  destruct (Infer_prefers_magic (H:=demo_libraries) ∅ "/srv/notes.txt")
    as (_ & _ & Hext & _).
  destruct (Infer_prefers_magic (H:=demo_libraries) ∅ "/srv/unknown")
    as (_ & _ & _ & _ & Hnone).
  split; [exact (Hmagic ltac:(discriminate))|].
  split; [exact (Hext eq_refl)|]. exact (Hnone eq_refl eq_refl).
Defined.

Lemma ServeDownload_or_ServeAttachment_witness :
  ServeDownload (H:=demo_libraries) ∅ tt "/srv/notes.txt" "my notes.txt"
    ["text/plain"] (Infer (H:=demo_libraries))
  = ServeAttachment (H:=demo_libraries) ∅ tt "/srv/notes.txt" "my notes.txt"
      (Infer (H:=demo_libraries))
  ∧ ServeDownload (H:=demo_libraries) ∅ tt "/srv/logo" "logo"
      ["image/png"] (Infer (H:=demo_libraries))
    = (SetContentType ∅ "/srv/logo" (Infer (H:=demo_libraries)), "/srv/logo").
Proof.
  destruct (ServeDownload_or_ServeAttachment (H:=demo_libraries) ∅ tt
              "/srv/notes.txt" "my notes.txt" ["text/plain"]
              (Infer (H:=demo_libraries))) as [Hatt _].
  destruct (ServeDownload_or_ServeAttachment (H:=demo_libraries) ∅ tt
              "/srv/logo" "logo" ["image/png"]
              (Infer (H:=demo_libraries))) as [_ Hinl].
  split.
  - apply Hatt; [discriminate|].
    intros Hin. apply list_elem_of_singleton in Hin. discriminate Hin.
  - apply Hinl. right. apply list_elem_of_singleton. reflexivity.
Defined.

Lemma SetAttachment_injective_witness :
  SetAttachment ∅ "a b" !! ContentDisposition
    = SetAttachment {[ContentType := ["text/html"]]} "a b" !! ContentDisposition
  ∧ "a b" = "a b".
Proof.
  split; [reflexivity|].
  exact (SetAttachment_injective ∅ {[ContentType := ["text/html"]]} "a b" "a b"
           eq_refl).
Defined.

Lemma SetAttachment_plain_name_witness :
  string_forallb (λ c, negb (shouldEscape c)) "report-2024_v1.pdf" = true
  ∧ SetAttachment ∅ "report-2024_v1.pdf" !! ContentDisposition
    = Some ["attachment; filename*=UTF-8''report-2024_v1.pdf"].
Proof.
  split; [reflexivity|].
  exact (proj2 (SetAttachment_plain_name ∅ "report-2024_v1.pdf" eq_refl)).
Defined.
